(** * Financial-Document Q&A with RAG: the notebook's four stages

    A shallow embedding of [financial_analyst.ipynb].  Python strings are
    sequences of Unicode code points; the notebook's cells are programs in a
    small state-and-exception monad over a world made of the disk and the
    standard output.  Everything the notebook imports (the PDF parser, the
    embedding model, the vector store, the generation model) is an external
    collaborator whose answers are inputs of the cell that calls it, and
    with them what the load of a model writes on the standard output and
    leaves on the disk.  The standard error, on which the libraries write
    their warnings, is not part of the world. *)

From Stdlib Require Import NArith Ascii String Decimal DecimalNat.
From stdpp Require Import base option list gmap.

Open Scope N_scope.
Open Scope nat_scope.

(** ** Python strings *)

(** A character is its code point; [len] is [length]. *)
Abbreviation char := N (only parsing).
Abbreviation str := (list N) (only parsing).

(** An ASCII literal of the source. *)
Definition py (s : string) : str := map N_of_ascii (list_ascii_of_string s).

Definition NL : N := 10%N.

(** [str(n)] for a non-negative integer: its decimal digits. *)
Fixpoint digits (d : Decimal.uint) : str :=
  match d with
  | Decimal.Nil => []
  | Decimal.D0 d => 48%N :: digits d
  | Decimal.D1 d => 49%N :: digits d
  | Decimal.D2 d => 50%N :: digits d
  | Decimal.D3 d => 51%N :: digits d
  | Decimal.D4 d => 52%N :: digits d
  | Decimal.D5 d => 53%N :: digits d
  | Decimal.D6 d => 54%N :: digits d
  | Decimal.D7 d => 55%N :: digits d
  | Decimal.D8 d => 56%N :: digits d
  | Decimal.D9 d => 57%N :: digits d
  end.

Definition str_of_nat (n : nat) : str := digits (Nat.to_uint n).

(** [c.isspace()]: the code points Python treats as whitespace, which are
    the ones [str.strip()] and [str.split()] remove. *)
Definition isspace (c : N) : bool :=
  ((9 <=? c) && (c <=? 13) || (28 <=? c) && (c <=? 32) || (c =? 133)
   || (c =? 160) || (c =? 5760) || (8192 <=? c) && (c <=? 8202)
   || (c =? 8232) || (c =? 8233) || (c =? 8239) || (c =? 8287)
   || (c =? 12288))%N.

(** ** Exceptions, the world, and the monad of a cell *)

(** An [exn] is an exception that derives from [Exception], known by its
    class, as far as the [except] clauses of the notebook tell classes apart,
    and by its message.  [KeyboardInterrupt] and [SystemExit], which do not
    derive from [Exception] and which no clause of the notebook catches, are
    not exceptions of this type: a run that one of them ends is not
    described here. *)
Inductive exn_class := FileNotFoundError | IndexError | OtherError.

Record exn := Exn { exn_cls : exn_class; exn_msg : str }.

(** [isinstance(e, c)] for the classes an [except] clause of the notebook
    names; [except Exception] is rendered as [None]: it catches every
    [exn]. *)
Definition caught_by (handler : option exn_class) (e : exn) : bool :=
  match handler, exn_cls e with
  | None, _ => true
  | Some FileNotFoundError, FileNotFoundError => true
  | Some IndexError, IndexError => true
  | Some OtherError, OtherError => true
  | _, _ => false
  end.

Inductive result (A : Type) := Ok (a : A) | Raise (e : exn).
Arguments Ok {A} a.
Arguments Raise {A} e.

(** What a path on the disk holds. *)
Inductive file :=
| Text (content : str)               (* a UTF-8 text file *)
| Pickle (chunks : list str)         (* pickle.dump of a list of strings *)
| PartialPickle                      (* a pickle stream cut short *)
| FaissIndex (texts : list str)      (* the directory save_local writes *)
| PartialFaissIndex                  (* that directory, not completed *)
| Model.                             (* a model, as a library stores it *)

Record world := World { disk : gmap (list N) file; stdout : list str }.

Definition M (A : Type) : Type := world → result A * world.

Definition ret {A} (a : A) : M A := λ w, (Ok a, w).
Definition raise {A} (e : exn) : M A := λ w, (Raise e, w).
Definition bind {A B} (m : M A) (k : A → M B) : M B :=
  λ w, match m w with
       | (Ok a, w') => k a w'
       | (Raise e, w') => (Raise e, w')
       end.

#[global] Instance M_ret : MRet M := @ret.
#[global] Instance M_bind : MBind M := λ A B k m, bind m k.

Definition lift {A} (r : result A) : M A := λ w, (r, w).

Definition print (line : str) : M unit :=
  λ w, (Ok tt, World (disk w) (stdout w ++ [line])).

(** What a library call that loads a model does to the world besides
    answering: the lines it writes on the standard output, and the files it
    leaves on the disk, the models it downloads into its cache. *)
Record effect := Effect {
  printed : list str;
  written : gmap (list N) file
}.

Definition no_effect : effect := Effect [] ∅.

(** A call of such a library: it answers after its effect, or it raises,
    and is then taken to have left the world as it was. *)
Definition library (answer : result effect) : M unit :=
  λ w, match answer with
       | Ok fx =>
           (Ok tt, World (written fx ∪ disk w) (stdout w ++ printed fx))
       | Raise e => (Raise e, w)
       end.

(** [try: body except C1: h1 except C2 as e: h2 ...]: the first clause
    whose class matches handles the exception. *)
Fixpoint dispatch {A} (handlers : list (option exn_class * (exn → M A)))
    (e : exn) : M A :=
  match handlers with
  | [] => raise e
  | (c, h) :: rest => if caught_by c e then h e else dispatch rest e
  end.

Definition try_except {A} (body : M A)
    (handlers : list (option exn_class * (exn → M A))) : M A :=
  λ w, match body w with
       | (Ok a, w') => (Ok a, w')
       | (Raise e, w') => dispatch handlers e w'
       end.

(** *** Files *)

(** What reading a file of the wrong kind raises: an exception of a class
    other than [FileNotFoundError].  Its message is that of the decoder (a
    pickle begins with the byte 0x80, which is not UTF-8), of the unpickler
    (a stream cut short is truncated; a text begins with a key that is not
    an opcode, which the unpickler's message goes on to quote), or of the
    operating system for a directory (given as Linux words it). *)
Definition decode_error : exn :=
  Exn OtherError
    (py "'utf-8' codec can't decode byte 0x80 in position 0: invalid start byte").
Definition truncated_error : exn :=
  Exn OtherError (py "pickle data was truncated").
Definition load_key_error : exn :=
  Exn OtherError (py "invalid load key").
Definition directory_error (path : str) : exn :=
  Exn OtherError (py "[Errno 21] Is a directory: '" ++ path ++ py "'").

(** [open(path, "r", encoding="utf-8").read()].  A text file is known by
    the string written to it, and reading gives that string back: text mode
    reads a carriage return, alone or before a line feed, as a line feed, so
    this is what Python does for a text that holds no carriage return. *)
Definition read_text (path : str) : M str :=
  λ w, match disk w !! path with
       | None => (Raise (Exn FileNotFoundError path), w)
       | Some (Text s) => (Ok s, w)
       | Some (Pickle _ | PartialPickle | Model) => (Raise decode_error, w)
       | Some (FaissIndex _ | PartialFaissIndex) =>
           (Raise (directory_error path), w)
       end.

(** [pickle.load(open(path, "rb"))]; a file that is not a complete pickle
    does not load. *)
Definition read_pickle (path : str) : M (list str) :=
  λ w, match disk w !! path with
       | None => (Raise (Exn FileNotFoundError path), w)
       | Some (Pickle l) => (Ok l, w)
       | Some PartialPickle => (Raise truncated_error, w)
       | Some (Text _ | Model) => (Raise load_key_error, w)
       | Some (FaissIndex _ | PartialFaissIndex) =>
           (Raise (directory_error path), w)
       end.

(** How the operating system answers a write: [open(path, "w")] creates or
    truncates the file before a single character is written, so an error
    raised by the write itself leaves a file cut short. *)
Inductive write_outcome :=
| Written
| OpenRaises (e : exn)
| WriteRaises (e : exn) (reached_disk : nat).

Definition set_file (path : str) (f : file) : M unit :=
  λ w, (Ok tt, World (<[path := f]> (disk w)) (stdout w)).

(** [with open(path, "w", encoding="utf-8") as f: f.write(text)]. *)
Definition write_text (os : write_outcome) (path : str) (text : str) : M unit :=
  match os with
  | Written => set_file path (Text text)
  | OpenRaises e => raise e
  | WriteRaises e n => set_file path (Text (take n text)) ;; raise e
  end.

(** [with open(path, "wb") as f: pickle.dump(chunks, f)]. *)
Definition write_pickle (os : write_outcome) (path : str) (chunks : list str)
    : M unit :=
  match os with
  | Written => set_file path (Pickle chunks)
  | OpenRaises e => raise e
  | WriteRaises e _ => set_file path PartialPickle ;; raise e
  end.

(** ** Stage 1: the Extractor (cell c37a030c) *)

Definition pdf_path : str := py "NASDAQ_AAPL_2024.pdf".
Definition output_text_file : str := py "extracted_report_text.txt".

(** The text of [--- Page n ---]. *)
Definition marker (n : nat) : str :=
  py "--- Page " ++ str_of_nat n ++ py " ---".

(** [f"\n--- Page {page_num + 1} ---\n"]. *)
Definition page_header (page_num : nat) : str :=
  [NL] ++ marker (page_num + 1) ++ [NL].

(** What [fitz.open] gives back: for each page, what
    [doc.load_page(i).get_text()] answers.  When it raises, the class of the
    exception is the library's to choose: for a path that does not exist
    PyMuPDF raises a [FileNotFoundError] of its own, derived from
    [RuntimeError], which is an [OtherError] here. *)
Abbreviation document := (list (result (list N))) (only parsing).

(** The [for page_num in range(num_pages)] loop, from [page_num] on, over
    the pages still to be read. *)
Fixpoint page_loop (pages : document) (page_num : nat) (full_text : str)
    : result str :=
  match pages with
  | [] => Ok full_text
  | Raise e :: _ => Raise e
  | Ok page_text :: rest =>
      page_loop rest (S page_num)
        ((full_text ++ page_header page_num) ++ page_text)
  end.

Definition extractor_body (opened : result document) (os : write_outcome)
    : M unit :=
  doc ← lift opened;
  let full_text := [] in
  let num_pages := length doc in
  full_text ← lift (page_loop doc 0 full_text);
  write_text os output_text_file full_text ;;
  print (py " Success! Extracted " ++ str_of_nat num_pages ++ py " pages.") ;;
  print (py "Full text saved to '" ++ output_text_file ++ py "'") ;;
  print ([NL] ++ py "--- PREVIEW OF EXTRACTED TEXT ---") ;;
  print (take 1000 full_text).

Definition unexpected (e : exn) : M unit :=
  print (py "An unexpected error occurred: " ++ exn_msg e).

Definition extractor (opened : result document) (os : write_outcome) : M unit :=
  try_except (extractor_body opened os)
    [ (Some FileNotFoundError, λ _,
        print (py " Error: The file '" ++ pdf_path ++ py "' was not found.") ;;
        print (py "Please make sure the PDF file is in the same directory as this script and the filename is correct."));
      (None, unexpected) ].

(** The text the Extractor builds from the pages of a document that parses. *)
Definition extract (pages : list str) : str :=
  match page_loop (Ok <$> pages) 0 [] with
  | Ok t => t
  | Raise _ => []
  end.

(** ** Substring search *)

(** [s.startswith(pat)]. *)
Fixpoint starts_with (pat s : str) : bool :=
  match pat, s with
  | [], _ => true
  | _ :: _, [] => false
  | p :: pat', c :: s' => (p =? c)%N && starts_with pat' s'
  end.

(** Every offset of [s] at which [pat] occurs, in increasing order. *)
Fixpoint positions (pat s : str) : list nat :=
  match s with
  | [] => []
  | _ :: s' => (if starts_with pat s then [0] else []) ++ (S <$> positions pat s')
  end.

(** The slice [s[a:b]]. *)
Definition slice (s : str) (a b : nat) : str := take (b - a) (drop a s).

(** The text the page loop leaves behind, page by page. *)
Fixpoint sections (page_num : nat) (pages : list str) : str :=
  match pages with
  | [] => []
  | page_text :: rest => page_header page_num ++ page_text ++ sections (S page_num) rest
  end.

(** A text that is empty or begins with a newline stops every match of a
    pattern that has no newline. *)
Definition barrier (t : str) : Prop := t = [] ∨ ∃ t', t = NL :: t'.

(** A decimal digit. *)
Definition is_digit (c : N) : Prop := (48 ≤ c ≤ 57)%N.

(** Where the Extractor puts the marker of page [n]: one past the text of
    the pages before it. *)
Definition marker_pos (pages : list str) (n : nat) : nat :=
  S (length (extract (take (n - 1) pages))).

(** ** More of Python's [str] *)

(** [pat in s], which is what [re.search(re.escape(pat), s)] decides. *)
Fixpoint contains (pat s : str) : bool :=
  starts_with pat s ||
  match s with
  | [] => false
  | _ :: s' => contains pat s'
  end.

(** [s.lstrip()], [s.rstrip()] and [s.strip()]. *)
Fixpoint lstrip (s : str) : str :=
  match s with
  | [] => []
  | c :: s' => if isspace c then lstrip s' else s
  end.

Definition rstrip (s : str) : str := reverse (lstrip (reverse s)).

Definition strip (s : str) : str := rstrip (lstrip s).

(** [separator.join(docs)]. *)
Fixpoint join (separator : str) (docs : list str) : str :=
  match docs with
  | [] => []
  | [d] => d
  | d :: rest => d ++ separator ++ join separator rest
  end.

(** The characters at which [str.splitlines()] ends a line. *)
Definition is_linebreak (c : N) : bool :=
  ((10 <=? c) && (c <=? 13) || (28 <=? c) && (c <=? 30) || (c =? 133)
   || (c =? 8232) || (c =? 8233))%N.

(** [s.splitlines()]: [line] is the line being read; a carriage return
    followed by a line feed ends one line, not two, and no empty line is
    reported after the last line break. *)
Fixpoint splitlines_from (s : str) (line : str) : list str :=
  match s with
  | [] => match line with [] => [] | _ => [line] end
  | c :: s' =>
      if is_linebreak c then
        match c, s' with
        | 13%N, 10%N :: s'' => line :: splitlines_from s'' []
        | _, _ => line :: splitlines_from s' []
        end
      else splitlines_from s' (line ++ [c])
  end.

Definition splitlines (s : str) : list str := splitlines_from s [].

(** [s.split()]: the maximal runs of characters that are not whitespace. *)
Fixpoint split_from (s : str) (word : str) : list str :=
  match s with
  | [] => match word with [] => [] | _ => [word] end
  | c :: s' =>
      if isspace c then
        match word with
        | [] => split_from s' []
        | _ => word :: split_from s' []
        end
      else split_from s' (word ++ [c])
  end.

Definition split (s : str) : list str := split_from s [].

Definition index_error : exn := Exn IndexError (py "list index out of range").

(** [l[i]] for [i >= 0], and [l[-1]]. *)
Definition getitem {A} (l : list A) (i : nat) : result A :=
  match l !! i with
  | Some x => Ok x
  | None => Raise index_error
  end.

Definition getlast {A} (l : list A) : result A :=
  match last l with
  | Some x => Ok x
  | None => Raise index_error
  end.

(** ** The splitter the Chunker calls

    The notebook does not split the text itself: it constructs
    [RecursiveCharacterTextSplitter(chunk_size=..., chunk_overlap=...,
    length_function=len)] from [langchain.text_splitter] and calls
    [split_text].  What follows is that class as the library defines it, with
    the defaults the notebook leaves in place:
    [separators=["\n\n", "\n", " ", ""]], [keep_separator=True],
    [is_separator_regex=False], [strip_whitespace=True].  Since the separators
    are literal strings, [re.search] and [re.split] on [re.escape(separator)]
    are substring search and splitting at the occurrences of the separator.
    The library's warning for an over-long [total] prints to the log only and
    is left out. *)

(** [list(text)]: the characters of a text, each as a string. *)
Definition characters (text : str) : list str := (λ c, [c]) <$> text.

Section splitter.
Variables (chunk_size chunk_overlap : nat).

(** [re.split("(" + re.escape(separator) + ")", text)] for a separator
    that is not empty: the pieces between the successive occurrences of
    the separator, leftmost first and not overlapping, with the separator
    itself between two pieces.  [skip] counts the characters of a matched
    separator still to be passed over; [piece] is the piece being read. *)
Fixpoint re_split_from (separator : str) (s : str) (skip : nat) (piece : str)
    : list str :=
  match s with
  | [] => [piece]
  | c :: s' =>
      match skip with
      | S k => re_split_from separator s' k piece
      | 0 =>
          if starts_with separator s
          then piece :: separator
                 :: re_split_from separator s' (length separator - 1) []
          else re_split_from separator s' 0 (piece ++ [c])
      end
  end.

Definition re_split (separator text : str) : list str :=
  re_split_from separator text 0 [].

(** [[_splits[i] + _splits[i + 1] for i in range(1, len(_splits), 2)]],
    read off [_splits[1:]]: each separator with the piece that follows it.
    [re.split] with one group gives an odd number of items, so no separator
    is left without its piece. *)
Fixpoint glue_pairs (l : list str) : list str :=
  match l with
  | sep :: piece :: rest => (sep ++ piece) :: glue_pairs rest
  | _ => []
  end.

(** [_split_text_with_regex(text, separator, keep_separator=True)]:
    [list(text)] for the empty separator; otherwise [[_splits[0]]] followed
    by the glued pairs (and by [_splits[-1:]] should [len(_splits)] be even);
    in both cases [[s for s in splits if s != ""]]. *)
Definition _split_text_with_regex (text separator : str) : list str :=
  let splits :=
    match separator with
    | [] => characters text
    | _ =>
        let _splits := re_split separator text in
        let splits := glue_pairs (drop 1 _splits) in
        let splits :=
          if Nat.even (length _splits)
          then splits ++ option_list (last _splits) else splits in
        take 1 _splits ++ splits
    end in
  filter (λ s, s ≠ []) splits.

(** [_join_docs(docs, separator)]: [separator.join(docs).strip()], or
    [None] when that is the empty string. *)
Definition _join_docs (docs : list str) (separator : str) : option str :=
  let text := strip (join separator docs) in
  match text with
  | [] => None
  | _ => Some text
  end.

(** [if doc is not None: docs.append(doc)]. *)
Definition docs_append (docs : list str) (doc : option str) : list str :=
  match doc with
  | Some d => docs ++ [d]
  | None => docs
  end.

(** The [while] loop of [_merge_splits]:
    [while total > chunk_overlap or (total + _len + (separator_len if
    len(current_doc) > 0 else 0) > chunk_size and total > 0)], whose body
    subtracts [len(current_doc[0]) + (separator_len if len(current_doc) > 1
    else 0)] from [total] and drops [current_doc[0]].  [total] is the length
    of [current_doc] joined, so the subtraction never goes below zero, and on
    an empty [current_doc] it is zero and the condition is false. *)
Fixpoint pop_front (separator_len _len : nat) (current_doc : list str)
    (total : nat) : list str * nat :=
  match current_doc with
  | [] => (current_doc, total)
  | d0 :: rest =>
      if (chunk_overlap <? total)
         || ((chunk_size <? total + _len
                 + (if 0 <? length current_doc then separator_len else 0))
             && (0 <? total))
      then pop_front separator_len _len rest
             (total - (length d0
                + (if 1 <? length current_doc then separator_len else 0)))
      else (current_doc, total)
  end.

(** The [for d in splits] loop of [_merge_splits]: when [d] does not fit,
    [current_doc] (if it is not empty) is joined and given out and the
    [while] loop runs; then [d] is appended and counted.  After the loop the
    last [current_doc] is joined and given out. *)
Fixpoint merge_loop (separator : str) (splits : list str)
    (docs current_doc : list str) (total : nat) : list str :=
  let separator_len := length separator in
  match splits with
  | [] => docs_append docs (_join_docs current_doc separator)
  | d :: rest =>
      let _len := length d in
      let '(docs, current_doc, total) :=
        if chunk_size <? total + _len
             + (if 0 <? length current_doc then separator_len else 0)
        then
          if 0 <? length current_doc then
            let docs := docs_append docs (_join_docs current_doc separator) in
            let '(current_doc, total) :=
              pop_front separator_len _len current_doc total in
            (docs, current_doc, total)
          else (docs, current_doc, total)
        else (docs, current_doc, total) in
      let current_doc := current_doc ++ [d] in
      let total :=
        total + _len + (if 1 <? length current_doc then separator_len else 0) in
      merge_loop separator rest docs current_doc total
  end.

Definition _merge_splits (splits : list str) (separator : str) : list str :=
  merge_loop separator splits [] [] 0.

(** The [for s in splits] loop of [_split_text].  A piece shorter than
    [chunk_size] joins [_good_splits]; any other piece first has the
    [_good_splits] merged and given out, and then is itself given out as it
    is ([if not new_separators]) or split with the finer separators.
    [deeper] is that recursive call on [new_separators], absent when the list
    is empty; [_separator] is [""] because the separators are kept. *)
Fixpoint split_loop (deeper : option (str → list str)) (splits : list str)
    (_good_splits final_chunks : list str) : list str :=
  let _separator := [] in
  match splits with
  | [] =>
      match _good_splits with
      | [] => final_chunks
      | _ => final_chunks ++ _merge_splits _good_splits _separator
      end
  | s :: rest =>
      if length s <? chunk_size
      then split_loop deeper rest (_good_splits ++ [s]) final_chunks
      else
        let final_chunks :=
          match _good_splits with
          | [] => final_chunks
          | _ => final_chunks ++ _merge_splits _good_splits _separator
          end in
        let final_chunks :=
          match deeper with
          | None => final_chunks ++ [s]
          | Some _split_text => final_chunks ++ _split_text s
          end in
        split_loop deeper rest [] final_chunks
  end.

(** [_split_text(text, separators)].  The first loop looks for the first
    separator that is empty or occurs in the text; [last] is
    [separators[-1]], used when none does. *)
Fixpoint _split_text (last : str) (separators : list str) (text : str)
    : list str :=
  match separators with
  | [] => split_loop None (_split_text_with_regex text last) [] []
  | _s :: rest =>
      match _s with
      | [] => split_loop None (_split_text_with_regex text []) [] []
      | _ =>
          if contains _s text then
            let deeper :=
              match rest with
              | [] => None
              | _ => Some (_split_text last rest)
              end in
            split_loop deeper (_split_text_with_regex text _s) [] []
          else _split_text last rest text
      end
  end.

Definition separators : list str := [[NL; NL]; [NL]; [32%N]; []].

(** [split_text(text)]. *)
Definition split_text (text : str) : list str :=
  _split_text [] separators text.
End splitter.

(** ** Stage 2: the Chunker (cells 045594de and 5c17b777) *)

Definition input_text_file : str := py "extracted_report_text.txt".
Definition output_chunks_file : str := py "report_chunks.pkl".
Definition chunk_size : nat := 1000.
Definition chunk_overlap : nat := 200.

(** [RecursiveCharacterTextSplitter(chunk_size=..., chunk_overlap=...,
    length_function=len).split_text(full_text)]. *)
Definition chunk (full_text : str) : list str :=
  split_text chunk_size chunk_overlap full_text.

Definition chunker_body (os : write_outcome) : M unit :=
  full_text ← read_text input_text_file;
  print (py "Successfully loaded the extracted text file.") ;;
  let chunks := chunk full_text in
  write_pickle os output_chunks_file chunks ;;
  print ([NL] ++ py " Success! The document was split into "
           ++ str_of_nat (length chunks) ++ py " chunks.") ;;
  print (py "Chunks saved to '" ++ output_chunks_file ++ py "'") ;;
  print ([NL] ++ py "--- PREVIEW OF FIRST CHUNK ---") ;;
  first ← lift (getitem chunks 0);
  print first.

Definition chunker (os : write_outcome) : M unit :=
  try_except (chunker_body os)
    [ (Some FileNotFoundError, λ _,
        print (py " Error: The file '" ++ input_text_file ++ py "' was not found.") ;;
        print (py "Please make sure you have successfully run the previous extraction step."));
      (None, unexpected) ].

(** ** Stage 3: the Indexer (cells b4f48359 and 5dcf202e) *)

Definition input_chunks_file : str := py "report_chunks.pkl".
Definition faiss_index_path : str := py "faiss_index".
Definition model_name : str := py "sentence-transformers/all-MiniLM-L6-v2".

(** What the libraries answer to the Indexer: loading the embedding model,
    which the first time downloads it and may write on the standard output,
    building the store with [FAISS.from_texts], and [save_local]. *)
Record indexer_env := IndexerEnv {
  ix_embeddings : result effect;
  ix_from_texts : result unit;
  ix_save : write_outcome
}.

(** [FAISS.from_texts(texts=chunks, embedding=embeddings)]: the library
    takes the dimension of the index from the first vector,
    [len(embeddings[0])], which for no text at all is an [IndexError]. *)
Definition from_texts (answer : result unit) (texts : list str) : result unit :=
  match texts with
  | [] => Raise index_error
  | _ :: _ => answer
  end.

(** [vectorstore.save_local(path)]; the store is known by its texts, the
    vectors being a function of them. *)
Definition save_local (os : write_outcome) (path : str) (texts : list str)
    : M unit :=
  match os with
  | Written => set_file path (FaissIndex texts)
  | OpenRaises e => raise e
  | WriteRaises e _ => set_file path PartialFaissIndex ;; raise e
  end.

Definition indexer_body (env : indexer_env) : M unit :=
  chunks ← read_pickle input_chunks_file;
  print (py "Successfully loaded " ++ str_of_nat (length chunks)
           ++ py " chunks from '" ++ input_chunks_file ++ py "'.") ;;
  print (py "Initializing embedding model: " ++ model_name) ;;
  library (ix_embeddings env) ;;
  print (py "Creating vector store from chunks. This may take a moment...") ;;
  lift (from_texts (ix_from_texts env) chunks) ;;
  save_local (ix_save env) faiss_index_path chunks ;;
  print ([NL] ++ py " Success! Vector store created and saved to '"
           ++ faiss_index_path ++ py "'.").

Definition indexer (env : indexer_env) : M unit :=
  try_except (indexer_body env)
    [ (Some FileNotFoundError, λ _,
        print (py " Error: The file '" ++ input_chunks_file ++ py "' was not found.") ;;
        print (py "Please make sure you have successfully run the previous chunking step."));
      (None, unexpected) ].

(** ** Stage 4: the Query Engine (cells c7fe4c19 and e2550bf8) *)

Definition llm_model_name : str := py "google/flan-t5-base".
Definition question : str :=
  py "What were the main risks identified by the company?".

(** What the libraries answer to the Query Engine: loading the embedding
    model, the exception [FAISS.load_local] raises when the index cannot be
    read, loading the generation model and building its pipeline, building
    the chain, and the chain's answer with its source documents.  The two
    loads download their model the first time, and may write on the standard
    output. *)
Record query_env := QueryEnv {
  q_embeddings : result effect;
  q_load_error : exn;
  q_llm : result effect;
  q_chain : result unit;
  q_invoke : list str → result (str * list str)
}.

(** [FAISS.load_local(path, embeddings, ...)]. *)
Definition load_local (load_error : exn) (path : str) : M (list str) :=
  λ w, match disk w !! path with
       | Some (FaissIndex texts) => (Ok texts, w)
       | _ => (Raise load_error, w)
       end.

(** The label the source loop computes for one retrieved chunk:
    [f"(from Page {page_content.splitlines()[1].split()[-1]})"], or the
    fallback of the [except IndexError] clause. *)
Definition page_info (page_content : str) : M str :=
  try_except
    (line ← lift (getitem (splitlines page_content) 1);
     word ← lift (getlast (split line));
     mret (py "(from Page " ++ word ++ py ")"))
    [ (Some IndexError, λ _, mret (py "(Page number not found)")) ].

(** [for i, source in enumerate(result['source_documents'])]. *)
Fixpoint sources_loop (i : nat) (source_documents : list str) : M unit :=
  match source_documents with
  | [] => mret tt
  | page_content :: rest =>
      info ← page_info page_content;
      print (py "Source " ++ str_of_nat (i + 1) ++ py " " ++ info ++ py ":") ;;
      print (take 300 page_content ++ py "...") ;;
      print (repeat 45%N 20) ;;
      sources_loop (S i) rest
  end.

Definition query_body (env : query_env) : M unit :=
  print (py "Loading embedding model...") ;;
  library (q_embeddings env) ;;
  print (py "Loading FAISS vector store...") ;;
  vectorstore ← load_local (q_load_error env) faiss_index_path;
  print (py "Vector store loaded successfully.") ;;
  print (py "Loading LLM: " ++ llm_model_name ++ py ". This might take a while...") ;;
  library (q_llm env) ;;
  print (py "LLM pipeline created.") ;;
  lift (q_chain env) ;;
  print (py "Q&A chain is ready.") ;;
  print ([NL] ++ py "Asking question: " ++ question) ;;
  result ← lift (q_invoke env vectorstore);
  print ([NL] ++ py "--- ANSWER ---") ;;
  print result.1 ;;
  print ([NL] ++ py "--- RELEVANT SOURCES ---") ;;
  sources_loop 0 result.2.

Definition query_engine (env : query_env) : M unit :=
  try_except (query_body env) [ (None, unexpected) ].

(** ** What the claims speak of *)

(** The line by which a stage reports that its input file is missing. *)
Definition missing_input_report (path : str) : str :=
  py " Error: The file '" ++ path ++ py "' was not found.".

(** The line by which a stage reports any other failure. *)
Definition unexpected_report (msg : str) : str :=
  py "An unexpected error occurred: " ++ msg.

(** A run of a cell from a world. *)
Definition run (cell : M unit) (w : world) : world := (cell w).2.

(** ** What the claims say of chunks *)

Definition begins_with_space (c : str) : bool :=
  match head c with
  | Some x => isspace x
  | None => false
  end.

Definition ends_with_space (c : str) : bool :=
  match last c with
  | Some x => isspace x
  | None => false
  end.

(** A chunk that neither begins nor ends with whitespace. *)
Definition trimmed (c : str) : Prop :=
  begins_with_space c = false ∧ ends_with_space c = false.

(** A text made of whitespace only, and a text that holds some other
    character. *)
Definition all_space (s : str) : bool := forallb isspace s.
Definition has_ink (s : str) : bool := existsb (λ c, negb (isspace c)) s.

(** The chunks, each with a prefix (its overlap with what came before)
    removed, concatenate to the text. *)
Definition reconstructs (chunks : list str) (text : str) : Prop :=
  ∃ parts, Forall2 suffix parts chunks ∧ concat parts = text.

(** The same, but for whitespace lost where a chunk begins or ends: the
    text is the chunks in order, each with a prefix removed, with nothing
    but whitespace before the first, between two of them, and after the
    last.  Inside a chunk no character is lost. *)
Inductive reconstructs_between_gaps : list str → str → Prop :=
| gaps_end gap :
    all_space gap = true → reconstructs_between_gaps [] gap
| gaps_chunk gap part c chunks text :
    all_space gap = true → part `suffix_of` c →
    reconstructs_between_gaps chunks text →
    reconstructs_between_gaps (c :: chunks) (gap ++ part ++ text).

(** [o] is at once the end of [c1] and the beginning of [c2]. *)
Definition overlap (c1 c2 o : str) : Prop :=
  o `suffix_of` c1 ∧ o `prefix_of` c2.

(** A text with no whitespace character in it. *)
Definition no_space (s : str) : bool := forallb (λ c, negb (isspace c)) s.

(** The separator [_split_text] cuts a text with: the first of the list
    that is empty or occurs in the text, and [last] when none does. *)
Fixpoint first_separator (last : str) (separators : list str) (text : str)
    : str :=
  match separators with
  | [] => last
  | [] :: _ => []
  | _s :: rest =>
      if contains _s text then _s else first_separator last rest text
  end.

(** The pieces a text is first cut into. *)
Definition pieces (text : str) : list str :=
  _split_text_with_regex text (first_separator [] separators text).

(** What becomes of the pieces of one separator: consecutive pieces
    shorter than [chunk_size] are merged together, a piece that is not is
    handed down to the finer separators. *)
Inductive group := Merged (pieces : list str) | HandedDown (piece : str).

Definition group_pieces (g : group) : list str :=
  match g with
  | Merged pieces => pieces
  | HandedDown piece => [piece]
  end.

(** The groups are the longest runs of short pieces and, one by one, the
    pieces that are not short. *)
Definition grouped (chunk_size : nat) (pieces : list str) (groups : list group)
    : Prop :=
  concat (group_pieces <$> groups) = pieces ∧
  Forall (λ g, match g with
               | Merged l => l ≠ [] ∧ Forall (λ p, length p < chunk_size) l
               | HandedDown p => chunk_size ≤ length p
               end) groups ∧
  ∀ i l1 l2, groups !! i = Some (Merged l1) →
             groups !! S i = Some (Merged l2) → False.

(** [_good_splits] and the pieces still to be read, in groups. *)
Fixpoint groups_from (chunk_size : nat) (good : list str) (splits : list str)
    : list group :=
  match splits with
  | [] => match good with [] => [] | _ => [Merged good] end
  | s :: rest =>
      if length s <? chunk_size
      then groups_from chunk_size (good ++ [s]) rest
      else match good with [] => [] | _ => [Merged good] end
             ++ HandedDown s :: groups_from chunk_size [] rest
  end.

(** The chunks a group gives: [deeper] is the splitter of the finer
    separators, absent when there is none, and then the piece is given out
    as it is. *)
Definition group_chunks (chunk_size chunk_overlap : nat)
    (deeper : option (str → list str)) (g : group) : list str :=
  match g with
  | Merged l => _merge_splits chunk_size chunk_overlap l []
  | HandedDown p =>
      match deeper with
      | None => [p]
      | Some _split_text => _split_text p
      end
  end.

(** A window of the text as a chunk: stripped, and dropped when nothing is
    left of it. *)
Definition window_chunk (text : str) (from to : nat) : option str :=
  _join_docs [slice text from to] [].

(** Any two consecutive chunks share a text that is not empty, the end
    of the one and the beginning of the next. *)
Definition overlapping (chunks : list str) : Prop :=
  ∀ i c1 c2, chunks !! i = Some c1 → chunks !! S i = Some c2 →
             ∃ o, o ≠ [] ∧ overlap c1 c2 o.

(** Pieces that each fit in the overlap, and two of which fit in a
    chunk. *)
Definition small_pieces (chunk_size chunk_overlap : nat) (pieces : list str)
    : bool :=
  forallb (λ p, (length p <=? chunk_overlap)
                && (length p + length p <=? chunk_size)) pieces.

(** Pieces none of which is blank, but for the last, which may be. *)
Definition inked_pieces (pieces : list str) : bool :=
  forallb has_ink (removelast pieces).

(** ** What more is said of the cells *)

(** [c] occurs in [text] as a run of consecutive characters. *)
Definition substring_of (c text : str) : Prop :=
  ∃ before after, text = before ++ c ++ after.

(** A text that holds no carriage return: text mode writes it and reads
    it back as it is. *)
Definition no_carriage_return (s : str) : bool :=
  forallb (λ c, negb (c =? 13)%N) s.

(** * Properties *)

(** ** The Extractor's text *)

(** *** Matching and searching *)

Lemma page_loop_sections pages k acc :
  page_loop (Ok <$> pages) k acc = Ok (acc ++ sections k pages).
Proof.
  revert k acc. induction pages as [|p r IH]; intros k acc.
  - cbn. by rewrite app_nil_r.
  - cbn [fmap list_fmap page_loop sections]. rewrite IH. f_equal.
    by rewrite <- !app_assoc.
Qed.

Lemma extract_sections pages : extract pages = sections 0 pages.
Proof. unfold extract. by rewrite page_loop_sections. Qed.

Lemma starts_with_refl pat s : starts_with pat (pat ++ s) = true.
Proof. induction pat as [|p pat IH]; simpl; [done|]. by rewrite N.eqb_refl. Qed.

Lemma starts_with_prefix pat s : starts_with pat s = true ↔ pat `prefix_of` s.
Proof.
  revert s. induction pat as [|p pat IH]; intros s; simpl.
  - split; [intros _; apply prefix_nil | done].
  - destruct s as [|c s]; simpl.
    + split; [done | intros H; by apply prefix_nil_not in H].
    + rewrite andb_true_iff, N.eqb_eq, IH. split.
      * intros [-> H]. by apply prefix_cons.
      * intros H. split; [by apply prefix_cons_inv_1 in H | by apply prefix_cons_inv_2 in H].
Qed.

Lemma starts_with_app_barrier pat s t :
  NL ∉ pat → barrier t → starts_with pat (s ++ t) = starts_with pat s.
Proof.
  revert s. induction pat as [|p pat IH]; intros s Hnl Hb; simpl; [done|].
  apply not_elem_of_cons in Hnl as [Hp Hnl].
  destruct s as [|c s]; simpl.
  - destruct Hb as [-> | [t' ->]]; [done|].
    destruct (N.eqb_spec p NL); [congruence | done].
  - by rewrite IH.
Qed.

Lemma positions_app_barrier pat s t :
  NL ∉ pat → barrier t →
  positions pat (s ++ t) = positions pat s ++ ((λ x, length s + x) <$> positions pat t).
Proof.
  intros Hnl Hb. induction s as [|c s IH]; simpl.
  - by rewrite list_fmap_id.
  - rewrite IH. change (c :: s ++ t) with ((c :: s) ++ t).
    rewrite starts_with_app_barrier by done.
    rewrite fmap_app, <- app_assoc. do 2 f_equal.
    rewrite <- list_fmap_compose. done.
Qed.

Lemma positions_skip pat c s :
  starts_with pat (c :: s) = false → positions pat (c :: s) = S <$> positions pat s.
Proof. intros H. simpl positions. by rewrite H. Qed.

(** *** Decimal numerals and the page marker *)

Lemma digits_are_digits d : Forall is_digit (digits d).
Proof. induction d; simpl; constructor; try done; unfold is_digit; lia. Qed.

Lemma digits_inj d d' : digits d = digits d' → d = d'.
Proof.
  revert d'. induction d; intros d'; destruct d'; simpl; intros H;
    try discriminate; try done; injection H as H; f_equal; auto.
Qed.

Lemma str_of_nat_inj n m : str_of_nat n = str_of_nat m → n = m.
Proof. intros H. by apply Unsigned.to_uint_inj, digits_inj. Qed.

Lemma starts_with_digits d1 d2 r1 r2 :
  Forall is_digit d1 → Forall is_digit d2 →
  starts_with (d1 ++ 32%N :: r1) (d2 ++ 32%N :: r2) = true → d1 = d2.
Proof.
  intros H1. revert d2. induction H1 as [|a d1 Ha H1 IH]; intros d2 H2 H.
  - destruct H2 as [|c d2 Hc H2]; [done|]. cbn [app starts_with] in H.
    apply andb_true_iff in H as [H _]. apply N.eqb_eq in H.
    unfold is_digit in Hc. lia.
  - destruct H2 as [|c d2 Hc H2]; cbn [app starts_with] in H;
      apply andb_true_iff in H as [Hac H]; apply N.eqb_eq in Hac.
    + unfold is_digit in Ha. lia.
    + subst c. f_equal. by apply IH.
Qed.

Lemma marker_unfold n :
  marker n = [45; 45; 45; 32; 80; 97; 103; 101; 32]%N ++ str_of_nat n ++ [32; 45; 45; 45]%N.
Proof. reflexivity. Qed.

Lemma marker_no_newline n : NL ∉ marker n.
Proof.
  rewrite marker_unfold. rewrite !not_elem_of_app. split_and!.
  - unfold NL. rewrite !not_elem_of_cons. split_and!; try done. apply not_elem_of_nil.
  - intros H. pose proof (digits_are_digits (Nat.to_uint n)) as Hd.
    rewrite Forall_forall in Hd. apply Hd in H. unfold is_digit, NL in H. lia.
  - unfold NL. rewrite !not_elem_of_cons. split_and!; try done. apply not_elem_of_nil.
Qed.

Lemma positions_marker_digits n ds :
  Forall is_digit ds → positions (marker n) (ds ++ [32; 45; 45; 45]%N) = [].
Proof.
  induction 1 as [|d ds Hd _ IH].
  - reflexivity.
  - cbn [app positions]. rewrite IH. rewrite marker_unfold. cbn [app starts_with].
    destruct (N.eqb_spec 45 d) as [<-|_]; [unfold is_digit in Hd; lia | done].
Qed.

Lemma positions_marker_marker n m :
  positions (marker n) (marker m) = if decide (n = m) then [0] else [].
Proof.
  rewrite (marker_unfold m). cbn [app].
  assert (Hs : starts_with (marker n)
      (45 :: 45 :: 45 :: 32 :: 80 :: 97 :: 103 :: 101 :: 32 :: str_of_nat m ++ [32; 45; 45; 45])%N
      = bool_decide (n = m)).
  { case_bool_decide as Hnm.
    - subst m. rewrite <- (app_nil_r (_ :: _)).
      change (45 :: 45 :: 45 :: 32 :: 80 :: 97 :: 103 :: 101 :: 32 :: str_of_nat n ++ [32; 45; 45; 45])%N
        with (marker n). apply starts_with_refl.
    - apply not_true_is_false. intros H. apply Hnm.
      rewrite marker_unfold in H. cbn [app starts_with] in H.
      rewrite !N.eqb_refl in H. cbn [andb] in H.
      apply str_of_nat_inj.
      eapply starts_with_digits; [apply digits_are_digits..|exact H]. }
  cbn [positions]. rewrite Hs.
  rewrite positions_marker_digits by apply digits_are_digits.
  rewrite (marker_unfold n). cbn.
  by case_bool_decide; case_decide.
Qed.

(** *** The markers in the extracted text *)

Lemma sections_barrier k pages : barrier (sections k pages).
Proof. destruct pages; [by left | right]. cbn. eauto. Qed.

Lemma starts_with_marker_newline n s : starts_with (marker n) (NL :: s) = false.
Proof. reflexivity. Qed.

Lemma sections_cons k p r :
  sections k (p :: r) = NL :: marker (k + 1) ++ NL :: p ++ sections (S k) r.
Proof. cbn [sections]. unfold page_header. by rewrite <- !app_assoc. Qed.

Lemma sections_app k l1 l2 :
  sections k (l1 ++ l2) = sections k l1 ++ sections (k + length l1) l2.
Proof.
  revert k. induction l1 as [|p l1 IH]; intros k.
  - cbn. by rewrite Nat.add_0_r.
  - cbn [app sections length]. rewrite IH, <- !app_assoc.
    by replace (S k + length l1) with (k + S (length l1)) by lia.
Qed.

Lemma positions_marker_sections pages k n :
  (∀ p m, p ∈ pages → positions (marker m) p = []) →
  positions (marker n) (sections k pages) =
    if decide (k + 1 ≤ n ≤ k + length pages)
    then [S (length (sections k (take (n - (k + 1)) pages)))] else [].
Proof.
  revert k. induction pages as [|p r IH]; intros k Hfree.
  - cbn. case_decide; [lia | done].
  - rewrite sections_cons.
    rewrite positions_skip by apply starts_with_marker_newline.
    rewrite positions_app_barrier by (apply marker_no_newline || (right; eauto)).
    rewrite positions_skip by apply starts_with_marker_newline.
    rewrite positions_app_barrier by (apply marker_no_newline || apply sections_barrier).
    rewrite positions_marker_marker, (Hfree p n) by left.
    rewrite IH by (intros; apply Hfree; by right).
    cbn [length app].
    destruct (decide (n = k + 1)) as [->|Hne].
    + repeat case_decide; try lia.
      replace (k + 1 - (k + 1)) with 0 by lia. reflexivity.
    + repeat case_decide; try lia; [|done].
      replace (n - (k + 1)) with (S (n - (S k + 1))) by lia.
      cbn [take]. rewrite sections_cons. cbn [fmap list_fmap app length].
      rewrite !length_app. cbn [length]. rewrite !length_app. do 2 f_equal. lia.
Qed.

Lemma length_sections_mono k l1 l2 :
  l2 ≠ [] → length (sections k l1) < length (sections k (l1 ++ l2)).
Proof.
  intros H. rewrite sections_app, length_app.
  destruct l2 as [|q l2]; [done|]. rewrite sections_cons. cbn [length]. lia.
Qed.

Lemma marker_pos_mono pages i j :
  1 ≤ i → i < j → j ≤ length pages → marker_pos pages i < marker_pos pages j.
Proof.
  intros Hi Hij Hj. unfold marker_pos. rewrite !extract_sections.
  apply -> Nat.succ_lt_mono.
  replace (take (i - 1) pages) with (take (i - 1) (take (j - 1) pages))
    by (rewrite take_take; f_equal; lia).
  rewrite <- (take_drop (i - 1) (take (j - 1) pages)) at 2.
  apply length_sections_mono.
  intros H. apply (f_equal length) in H. rewrite length_drop, length_take in H.
  cbn in H. lia.
Qed.

Lemma extract_between pages i p :
  pages !! i = Some p →
  slice (extract pages) (marker_pos pages (i + 1) + length (marker (i + 1)))
        (if decide (S i < length pages) then marker_pos pages (i + 2)
         else length (extract pages))
  = [NL] ++ p ++ (if decide (S i < length pages) then [NL] else []).
Proof.
  intros Hp. unfold marker_pos, slice. rewrite !extract_sections.
  apply list_elem_of_split_length in Hp as (l1 & l2 & -> & ->).
  replace (length l1 + 1 - 1) with (length l1) by lia.
  replace (length l1 + 2 - 1) with (S (length l1)) by lia.
  rewrite take_app_length.
  replace (take (S (length l1)) (l1 ++ p :: l2)) with (l1 ++ [p])
    by (replace (S (length l1)) with (length l1 + 1) by lia;
        by rewrite take_app_add).
  rewrite (length_app l1 (p :: l2)). cbn [length].
  rewrite !sections_app, Nat.add_0_l, !sections_cons.
  set (s1 := sections 0 l1). set (i := length l1).
  replace (S (length s1) + length (marker (i + 1)))
    with (length (s1 ++ NL :: marker (i + 1))) by (rewrite length_app; cbn; lia).
  replace (s1 ++ NL :: marker (i + 1) ++ NL :: p ++ sections (S i) l2)
    with ((s1 ++ NL :: marker (i + 1)) ++ NL :: p ++ sections (S i) l2)
    by (by rewrite <- app_assoc).
  rewrite drop_app_length.
  case_decide as Hlast.
  - destruct l2 as [|q l2]; [cbn in Hlast; lia|].
    rewrite sections_cons. cbn [sections]. rewrite app_nil_r.
    repeat (rewrite ?length_app; cbn [length]).
    replace (S (length s1 + S (length (marker (i + 1)) + S (length p)))
             - (length s1 + S (length (marker (i + 1)))))
      with (length (NL :: p) + 1) by (cbn; lia).
    change (NL :: p ++ NL :: marker (S i + 1) ++ NL :: q ++ sections (S (S i)) l2)
      with ((NL :: p) ++ NL :: marker (S i + 1) ++ NL :: q ++ sections (S (S i)) l2).
    by rewrite take_app_add.
  - destruct l2 as [|q l2]; [|cbn in Hlast; lia].
    cbn [sections]. rewrite !app_nil_r.
    rewrite take_ge; [done|].
    repeat (rewrite ?length_app; cbn [length]). lia.
Qed.

(** C2, as the code has it: when no page's own text contains a page marker,
    the extracted text holds the marker of each page 1..N exactly once and
    no other marker, the markers stand in strictly increasing page order,
    and between the marker of page i and the next marker (or the end of the
    text, for the last page) lies a newline, then exactly page i's text,
    then (unless it is the last page) a newline. *)
Theorem extract_markers (pages : list str) :
  (∀ p m, p ∈ pages → positions (marker m) p = []) →
  (∀ n, positions (marker n) (extract pages) =
        if decide (1 ≤ n ≤ length pages) then [marker_pos pages n] else []) ∧
  (∀ i j, 1 ≤ i → i < j → j ≤ length pages →
        marker_pos pages i < marker_pos pages j) ∧
  (∀ i p, pages !! i = Some p →
        slice (extract pages)
          (marker_pos pages (i + 1) + length (marker (i + 1)))
          (if decide (S i < length pages) then marker_pos pages (i + 2)
           else length (extract pages))
        = [NL] ++ p ++ (if decide (S i < length pages) then [NL] else [])).
Proof.
  intros Hfree. split_and!.
  - intros n. rewrite extract_sections, positions_marker_sections by done.
    unfold marker_pos. rewrite extract_sections.
    replace (n - (0 + 1)) with (n - 1) by lia.
    by repeat case_decide; try lia.
  - apply marker_pos_mono.
  - apply extract_between.
Qed.

Lemma extract_markers_witness :
  let pages := [py "Annual report"; py "Risk factors"] in
  positions (marker 1) (extract pages) = [1] ∧
  positions (marker 2) (extract pages) = [30] ∧
  positions (marker 3) (extract pages) = [] ∧
  marker_pos pages 1 < marker_pos pages 2 ∧
  slice (extract pages) (1 + length (marker 1)) 30
    = [NL] ++ py "Annual report" ++ [NL] ∧
  slice (extract pages) (30 + length (marker 2)) (length (extract pages))
    = [NL] ++ py "Risk factors".
Proof.
  intros pages.
  destruct (extract_markers pages) as (Hpos & Hlt & Hbetween).
  { intros p m Hp. apply list_elem_of_In in Hp.
    destruct Hp as [<-|[<-|[]]]; reflexivity. }
  split_and!.
  - apply (Hpos 1).
  - apply (Hpos 2).
  - apply (Hpos 3).
  - apply Hlt; cbn; lia.
  - apply (Hbetween 0 (py "Annual report")). reflexivity.
  - apply (Hbetween 1 (py "Risk factors")). reflexivity.
Defined.

(** C2 as stated fails: a page whose own text is a page marker makes that
    marker occur twice in the extracted text. *)
Lemma extract_marker_twice :
  ¬ (∀ (pages : list str) (n : nat), 1 ≤ n ≤ length pages →
       length (positions (marker n) (extract pages)) = 1).
Proof.
  intros H. specialize (H [marker 1] 1). cbn in H.
  assert (Hn : 1 ≤ 1 ≤ 1) by lia. specialize (H Hn). discriminate H.
Qed.

(** ** The stages as programs *)

(** Runs a cell symbolically: unfolds the monad and the cell bodies, and
    leaves the literals of the source folded. *)
Ltac run_cell :=
  repeat first
    [ progress unfold run, extractor, extractor_body, chunker, chunker_body,
        indexer, indexer_body, query_engine, query_body, unexpected,
        try_except, mbind, M_bind, bind, mret, M_ret, ret, lift, raise,
        print, library, set_file, write_text, write_pickle, save_local,
        index_error, no_effect
    | progress cbn [dispatch caught_by exn_cls exn_msg page_loop
        ix_embeddings ix_from_texts ix_save
        q_embeddings q_load_error q_llm q_chain q_invoke
        printed written disk stdout fst snd length] ].

(** C10: on a document of zero pages the Extractor does not fail.  It
    writes the output text file with the empty string as its content (which
    holds no page marker) and reports [Extracted 0 pages]. *)
Theorem extractor_zero_pages (w : world) :
  extractor (Ok []) Written w =
    (Ok tt,
     World (<[output_text_file := Text []]> (disk w))
       (stdout w ++ [py " Success! Extracted 0 pages.";
                     py "Full text saved to 'extracted_report_text.txt'";
                     [NL] ++ py "--- PREVIEW OF EXTRACTED TEXT ---";
                     []]))
  ∧ extract [] = []
  ∧ ∀ n, positions (marker n) (extract []) = [].
Proof.
  split_and!; [|done..].
  run_cell. by rewrite <- !app_assoc.
Qed.

Lemma world_eta w : World (disk w) (stdout w) = w.
Proof. by destruct w. Qed.

(** C4, as the code has it.  The Chunker and the Indexer, when their
    input file is not on the disk, print the missing-input report that names
    the path and leave the disk as it was.  The Query Engine has no such
    report: when the index is not on the disk it prints the report of an
    unexpected failure, with the message of whatever the loader raised (or
    of the embedding model, should that fail to load first), and writes
    nothing itself: the disk is as it was but for the files the load of the
    embedding model has left in its cache. *)
Theorem missing_input_reports :
  (∀ os w, disk w !! input_text_file = None →
     let w' := run (chunker os) w in
     disk w' = disk w ∧
     stdout w' = stdout w ++
       [missing_input_report input_text_file;
        py "Please make sure you have successfully run the previous extraction step."]) ∧
  (∀ env w, disk w !! input_chunks_file = None →
     let w' := run (indexer env) w in
     disk w' = disk w ∧
     stdout w' = stdout w ++
       [missing_input_report input_chunks_file;
        py "Please make sure you have successfully run the previous chunking step."]) ∧
  (∀ env w, disk w !! faiss_index_path = None →
     let w' := run (query_engine env) w in
     match q_embeddings env with
     | Ok fx =>
         written fx !! faiss_index_path = None →
         disk w' = written fx ∪ disk w ∧
         stdout w' = stdout w ++
           [py "Loading embedding model..."] ++ printed fx ++
           [py "Loading FAISS vector store...";
            unexpected_report (exn_msg (q_load_error env))]
     | Raise e =>
         disk w' = disk w ∧
         stdout w' = stdout w ++
           [py "Loading embedding model..."; unexpected_report (exn_msg e)]
     end).
Proof.
  split_and!.
  - intros os w Hw. run_cell. unfold read_text. rewrite Hw. run_cell.
    by rewrite <- app_assoc.
  - intros env w Hw. run_cell. unfold read_pickle. rewrite Hw. run_cell.
    by rewrite <- app_assoc.
  - intros env w Hw. run_cell. destruct (q_embeddings env) as [fx|e]; run_cell.
    + intros Hfx. unfold load_local. run_cell.
      rewrite lookup_union_r by done. rewrite Hw. run_cell.
      by rewrite <- !app_assoc.
    + by rewrite <- !app_assoc.
Qed.

Lemma missing_input_reports_witness :
  let w := World ∅ [] in
  let cache := Effect [] {[ py "cache/model.safetensors" := Model ]} in
  let env := QueryEnv (Ok cache) (Exn OtherError (py "could not open faiss_index"))
               (Ok no_effect) (Ok tt) (λ _, Ok ([], [])) in
  stdout (run (chunker Written) w)
    = [missing_input_report input_text_file;
       py "Please make sure you have successfully run the previous extraction step."] ∧
  stdout (run (indexer (IndexerEnv (Ok no_effect) (Ok tt) Written)) w)
    = [missing_input_report input_chunks_file;
       py "Please make sure you have successfully run the previous chunking step."] ∧
  stdout (run (query_engine env) w)
    = [py "Loading embedding model..."; py "Loading FAISS vector store...";
       unexpected_report (py "could not open faiss_index")] ∧
  disk (run (chunker Written) w) = ∅ ∧
  disk (run (indexer (IndexerEnv (Ok no_effect) (Ok tt) Written)) w) = ∅ ∧
  disk (run (query_engine env) w) = written cache ∪ ∅.
Proof.
  intros w cache env.
  destruct missing_input_reports as (Hchunker & Hindexer & Hquery).
  destruct (Hchunker Written w eq_refl) as [Hc1 Hc2].
  destruct (Hindexer (IndexerEnv (Ok no_effect) (Ok tt) Written) w eq_refl)
    as [Hi1 Hi2].
  destruct (Hquery env w eq_refl ltac:(vm_compute; reflexivity)) as [Hq1 Hq2].
  split_and!; [exact Hc2 | exact Hi2 | exact Hq2 | exact Hc1 | exact Hi1 | exact Hq1].
Defined.

(** C4 as stated fails for the Query Engine: with the index missing, and
    even if the loader raises [FileNotFoundError], the only failure line is
    the report of an unexpected failure; no line is the missing-input
    report. *)
Lemma query_engine_missing_index :
  let w := World ∅ [] in
  let env := QueryEnv (Ok no_effect) (Exn FileNotFoundError (py "faiss_index"))
               (Ok no_effect) (Ok tt) (λ _, Ok ([], [])) in
  disk w !! faiss_index_path = None ∧
  stdout (run (query_engine env) w) =
    [py "Loading embedding model..."; py "Loading FAISS vector store...";
     unexpected_report (py "faiss_index")] ∧
  missing_input_report faiss_index_path ∉ stdout (run (query_engine env) w).
Proof.
  cbn zeta. split_and!; [done | done |].
  intros H. apply list_elem_of_In in H. vm_compute in H.
  repeat (destruct H as [H|H]; [discriminate H|]). exact H.
Qed.




(** Picks the [except] clause that handles [e]. *)
Ltac handler e := destruct (exn_cls e); run_cell; auto.




Lemma input_not_output : input_text_file ≠ output_chunks_file.
Proof. intros H. vm_compute in H. discriminate H. Qed.

Lemma chunker_on_text w full_text :
  disk w !! input_text_file = Some (Text full_text) →
  disk (run (chunker Written) w) =
    <[output_chunks_file := Pickle (chunk full_text)]> (disk w).
Proof.
  intros Hin. run_cell. unfold read_text. rewrite Hin. run_cell.
  unfold getitem. by destruct (chunk full_text !! 0).
Qed.

Lemma chunker_without_text w :
  (∀ full_text, disk w !! input_text_file ≠ Some (Text full_text)) →
  disk (run (chunker Written) w) = disk w.
Proof.
  intros Hin. run_cell. unfold read_text.
  destruct (disk w !! input_text_file) as [[t| | | | |]|]; run_cell; try done.
  by destruct (Hin t).
Qed.

(** C6: the Chunker writes chunks that depend on nothing but the text it
    reads, so two runs on the same text write the same ordered sequence; and
    running it again changes nothing on the disk. *)
Theorem chunking_deterministic_idempotent :
  (∀ w1 w2 full_text,
     disk w1 !! input_text_file = Some (Text full_text) →
     disk w2 !! input_text_file = Some (Text full_text) →
     disk (run (chunker Written) w1) !! output_chunks_file
       = Some (Pickle (chunk full_text)) ∧
     disk (run (chunker Written) w2) !! output_chunks_file
       = disk (run (chunker Written) w1) !! output_chunks_file) ∧
  (∀ w, disk (run (chunker Written) (run (chunker Written) w))
        = disk (run (chunker Written) w)).
Proof.
  split.
  - intros w1 w2 t H1 H2.
    rewrite (chunker_on_text w1 t H1), (chunker_on_text w2 t H2).
    by rewrite !lookup_insert_eq.
  - intros w.
    assert (Hcase : (∃ t, disk w !! input_text_file = Some (Text t)) ∨
                    ∀ t, disk w !! input_text_file ≠ Some (Text t)).
    { destruct (disk w !! input_text_file) as [[t| | | | |]|]; eauto. }
    destruct Hcase as [[t Hin]|Hw].
    + rewrite (chunker_on_text _ t).
      * rewrite (chunker_on_text w t Hin). apply insert_insert_eq.
      * rewrite (chunker_on_text w t Hin).
        rewrite lookup_insert_ne; [done|]. apply not_eq_sym, input_not_output.
    + apply chunker_without_text. by rewrite (chunker_without_text w Hw).
Qed.

Lemma chunking_deterministic_idempotent_witness :
  let text := extract [py "Annual report"; py "Risk factors"] in
  let w1 := World {[ input_text_file := Text text ]} [] in
  let w2 := World {[ input_text_file := Text text;
                     output_chunks_file := Pickle [py "stale"] ]} [py "earlier output"] in
  disk (run (chunker Written) w1) !! output_chunks_file = Some (Pickle (chunk text)) ∧
  disk (run (chunker Written) w2) !! output_chunks_file
    = disk (run (chunker Written) w1) !! output_chunks_file.
Proof.
  intros text w1 w2.
  apply (proj1 chunking_deterministic_idempotent w1 w2 text); reflexivity.
Defined.

(** The fallback label is reached only when the chunk has no second line or
    its second line has no word. *)
Lemma page_info_not_found page_content w :
  (splitlines page_content !! 1 = None ∨
   ∃ line, splitlines page_content !! 1 = Some line ∧ split line = []) →
  page_info page_content w = (Ok (py "(Page number not found)"), w).
Proof.
  unfold page_info, try_except, mbind, M_bind, bind, lift, getitem, getlast.
  intros [-> | (line & -> & Hs)]; [done|]. by rewrite Hs.
Qed.

Lemma page_info_label page_content line word w :
  splitlines page_content !! 1 = Some line → last (split line) = Some word →
  page_info page_content w = (Ok (py "(from Page " ++ word ++ py ")"), w).
Proof.
  unfold page_info, try_except, mbind, M_bind, bind, lift, getitem, getlast.
  by intros -> ->.
Qed.

(** C5, at the failing inputs.  A chunk with no page marker whose second
    line ends in the word "to" is labelled as coming from page "to", and a
    chunk that begins with the marker of page 12 is labelled with the last
    word of the line after the marker; neither gets the "not found" label
    or the page number. *)
Theorem page_info_wrong_label (w : world) :
  page_info (py "Risk factors follow" ++ [NL] ++ py "subject to") w
    = (Ok (py "(from Page to)"), w) ∧
  page_info (marker 12 ++ [NL] ++ py "products may affect" ++ [NL] ++ py "the Company") w
    = (Ok (py "(from Page affect)"), w).
Proof. split; reflexivity. Qed.

(** ** The splitter *)

(** *** Stripping *)

Lemma lstrip_suffix s : lstrip s `suffix_of` s.
Proof.
  induction s as [|c s IH]; cbn [lstrip]; [done|].
  destruct (isspace c); [by apply suffix_cons_r | done].
Qed.

Lemma rstrip_prefix s : rstrip s `prefix_of` s.
Proof.
  unfold rstrip. apply prefix_suffix_reverse.
  rewrite reverse_involutive. apply lstrip_suffix.
Qed.

Lemma lstrip_head s x : head (lstrip s) = Some x → isspace x = false.
Proof.
  induction s as [|c s IH]; cbn [lstrip]; [done|].
  destruct (isspace c) eqn:Hc; [done|]. cbn. by intros [= <-].
Qed.

Lemma rstrip_last s x : last (rstrip s) = Some x → isspace x = false.
Proof. unfold rstrip. rewrite last_reverse. apply lstrip_head. Qed.

Lemma strip_trimmed s : trimmed (strip s).
Proof.
  unfold trimmed, begins_with_space, ends_with_space, strip. split.
  - destruct (head (rstrip (lstrip s))) as [x|] eqn:Hx; [|done].
    destruct (rstrip_prefix (lstrip s)) as [k Hk].
    apply (lstrip_head s). rewrite Hk.
    destruct (rstrip (lstrip s)); [done|]. by injection Hx as ->.
  - destruct (last (rstrip (lstrip s))) as [x|] eqn:Hx; [|done].
    by apply rstrip_last in Hx.
Qed.

Lemma join_docs_trimmed docs separator d :
  _join_docs docs separator = Some d → trimmed d.
Proof.
  unfold _join_docs. pose proof (strip_trimmed (join separator docs)) as H.
  destruct (strip (join separator docs)); [done|]. by intros [= <-].
Qed.

Lemma docs_append_Forall (P : list N → Prop) docs doc :
  Forall P docs → (∀ d, doc = Some d → P d) → Forall P (docs_append docs doc).
Proof.
  intros Hdocs Hdoc. destruct doc as [d|]; cbn; [|done].
  apply Forall_app. split; [done|]. constructor; [by apply Hdoc | done].
Qed.

(** *** One round of the merge loop, with the separator empty *)

Section merging.
Variables (cs co : nat).

Lemma merge_loop_cons d rest docs cur total :
  merge_loop cs co [] (d :: rest) docs cur total =
    if (cs <? total + length d) && (0 <? length cur)
    then merge_loop cs co [] rest (docs_append docs (_join_docs cur []))
           ((pop_front cs co 0 (length d) cur total).1 ++ [d])
           ((pop_front cs co 0 (length d) cur total).2 + length d)
    else merge_loop cs co [] rest docs (cur ++ [d]) (total + length d).
Proof.
  cbn [merge_loop length].
  replace (total + length d + (if 0 <? length cur then 0 else 0))
    with (total + length d) by (destruct (0 <? length cur); lia).
  destruct (cs <? total + length d); cbn [andb].
  - destruct (0 <? length cur).
    + destruct (pop_front cs co 0 (length d) cur total) as [cur' total'].
      cbn [fst snd]. f_equal. destruct (1 <? _); lia.
    + f_equal. destruct (1 <? _); lia.
  - f_equal. destruct (1 <? _); lia.
Qed.

Lemma merge_loop_nil docs cur total :
  merge_loop cs co [] [] docs cur total = docs_append docs (_join_docs cur []).
Proof. reflexivity. Qed.

Lemma merge_loop_Forall (P : list N → Prop) splits docs cur total :
  (∀ docs' d, _join_docs docs' [] = Some d → P d) →
  Forall P docs → Forall P (merge_loop cs co [] splits docs cur total).
Proof.
  intros HP. revert docs cur total.
  induction splits as [|d rest IH]; intros docs cur total Hdocs.
  - rewrite merge_loop_nil. apply docs_append_Forall; eauto.
  - rewrite merge_loop_cons. destruct (_ && _); apply IH; [|done].
    apply docs_append_Forall; eauto.
Qed.
End merging.

(** *** A property of every chunk *)

Section every_chunk.
Variables (cs co : nat) (P : list N → Prop).

Hypothesis merged_ok :
  ∀ good, Forall (λ s, length s < cs) good → Forall P (_merge_splits cs co good []).
Hypothesis single_ok : ∀ c : N, cs ≤ 1 → P [c].

Lemma split_loop_Forall deeper splits good final :
  match deeper with
  | None => Forall (λ s, cs ≤ length s → P s) splits
  | Some f => ∀ s, Forall P (f s)
  end →
  Forall (λ s, length s < cs) good → Forall P final →
  Forall P (split_loop cs co deeper splits good final).
Proof.
  intros Hdeeper. revert good final.
  induction splits as [|s rest IH]; intros good final Hgood Hfinal.
  - cbn [split_loop]. destruct good; [done|].
    apply Forall_app. split; [done | by apply merged_ok].
  - cbn [split_loop]. destruct (Nat.ltb_spec (length s) cs) as [Hlt|Hge].
    + apply IH; [|by apply Forall_app; split; [|constructor]|done].
      destruct deeper; [done|]. by inversion Hdeeper.
    + assert (Hflush : Forall P
        match good with [] => final | _ => final ++ _merge_splits cs co good [] end).
      { destruct good; [done|]. apply Forall_app. split; [done | by apply merged_ok]. }
      apply IH; [destruct deeper; [done|]; by inversion Hdeeper | done |].
      destruct deeper as [f|].
      * apply Forall_app. split; [done | apply Hdeeper].
      * apply Forall_app. split; [done|]. constructor; [|done].
        inversion Hdeeper; subst. auto.
Qed.

Lemma characters_Forall (Q : list N → Prop) (text : list N) :
  (∀ c, Q [c]) → Forall Q (_split_text_with_regex text []).
Proof.
  intros HQ. unfold _split_text_with_regex.
  apply Forall_forall. intros s Hs.
  apply list_elem_of_filter in Hs as [_ Hs].
  unfold characters in Hs.
  apply list_elem_of_fmap in Hs as (c & -> & _). apply HQ.
Qed.

Lemma _split_text_Forall last seps text :
  [] ∈ seps → Forall P (_split_text cs co last seps text).
Proof.
  revert text. induction seps as [|_s rest IH]; intros text Hin.
  - by apply elem_of_nil in Hin.
  - cbn [_split_text]. destruct _s as [|c _s].
    + apply split_loop_Forall; [|done..].
      apply characters_Forall. intros c. cbn [length]. apply single_ok.
    + apply elem_of_cons in Hin as [Hin|Hin]; [done|].
      destruct (contains (c :: _s) text); [|by apply IH].
      apply split_loop_Forall; [|done..].
      destruct rest; [by apply elem_of_nil in Hin|]. intros s. by apply IH.
Qed.

Lemma split_text_Forall text : Forall P (split_text cs co text).
Proof.
  apply _split_text_Forall. unfold separators. set_solver.
Qed.
End every_chunk.

(** C9: with the notebook's parameters, no chunk begins or ends with a
    whitespace character, whatever the text. *)
Theorem chunks_trimmed (text : list N) : Forall trimmed (chunk text).
Proof.
  unfold chunk. apply split_text_Forall.
  - intros good _. apply merge_loop_Forall; [|done].
    intros docs d. apply join_docs_trimmed.
  - unfold chunk_size. lia.
Qed.

(** *** The length of a chunk *)

Lemma join_nil docs : join [] docs = concat docs.
Proof.
  induction docs as [|d [|d' rest] IH]; [done| |].
  - cbn. by rewrite app_nil_r.
  - change (join [] (d :: d' :: rest)) with (d ++ [] ++ join [] (d' :: rest)).
    by rewrite IH.
Qed.

Lemma strip_length s : length (strip s) ≤ length s.
Proof.
  unfold strip.
  pose proof (prefix_length _ _ (rstrip_prefix (lstrip s))).
  pose proof (suffix_length _ _ (lstrip_suffix s)). lia.
Qed.

Lemma join_docs_length docs d :
  _join_docs docs [] = Some d → length d ≤ length (concat docs).
Proof.
  unfold _join_docs. rewrite join_nil.
  pose proof (strip_length (concat docs)) as H.
  destruct (strip (concat docs)); [done|]. by intros [= <-].
Qed.

Section lengths.
Variables (cs co : nat).

(** The pieces dropped by the [while] loop leave [total] equal to the
    length of what is kept, and the loop stops only when its condition is
    false or nothing is left. *)
Lemma pop_front_spec _len cur total :
  total = length (concat cur) →
  (pop_front cs co 0 _len cur total).2
    = length (concat (pop_front cs co 0 _len cur total).1) ∧
  ((pop_front cs co 0 _len cur total).1 = [] ∨
   (pop_front cs co 0 _len cur total).2 ≤ co ∧
   ((pop_front cs co 0 _len cur total).2 + _len ≤ cs
    ∨ (pop_front cs co 0 _len cur total).2 = 0)).
Proof.
  revert total. induction cur as [|d0 rest IH]; intros total Htotal.
  - cbn. auto.
  - cbn [pop_front].
    destruct ((co <? total) || _) eqn:Hcond.
    + apply IH. subst total. cbn [concat]. rewrite length_app.
      destruct (1 <? _); lia.
    + cbn [fst snd]. split; [done|]. right.
      apply orb_false_iff in Hcond as [H1 H2].
      apply Nat.ltb_ge in H1. split; [done|].
      apply andb_false_iff in H2 as [H2|H2].
      * apply Nat.ltb_ge in H2. left.
        destruct (0 <? length (d0 :: rest)) in H2; cbn beta iota in H2; lia.
      * apply Nat.ltb_ge in H2. right. lia.
Qed.

Lemma merge_loop_length splits docs cur total :
  Forall (λ s, length s < cs) splits →
  total = length (concat cur) → total ≤ cs →
  Forall (λ c, length c ≤ cs) docs →
  Forall (λ c, length c ≤ cs) (merge_loop cs co [] splits docs cur total).
Proof.
  revert docs cur total.
  induction splits as [|d rest IH]; intros docs cur total Hs Htotal Hle Hdocs.
  - rewrite merge_loop_nil. apply docs_append_Forall; [done|].
    intros c Hc. apply join_docs_length in Hc. lia.
  - inversion Hs as [|? ? Hd Hrest]; subst.
    rewrite merge_loop_cons.
    destruct (_ && _) eqn:Hcond.
    + destruct (pop_front_spec (length d) cur (length (concat cur)) eq_refl)
        as [Ht Hstop].
      apply IH; [done| | |].
      * rewrite concat_app, length_app. cbn [concat length].
        rewrite app_nil_r. lia.
      * destruct Hstop as [Hnil | [_ [H|H]]]; [|lia|lia].
        rewrite Hnil in Ht. cbn in Ht. lia.
      * apply docs_append_Forall; [done|].
        intros c Hc. apply join_docs_length in Hc. lia.
    + apply IH; [done| | |done].
      * rewrite concat_app, length_app. cbn [concat length].
        rewrite app_nil_r. lia.
      * apply andb_false_iff in Hcond as [H|H]; apply Nat.ltb_ge in H; [lia|].
        destruct cur; [cbn; lia | cbn in H; lia].
Qed.

Lemma chunk_lengths text :
  1 ≤ cs → Forall (λ c, length c ≤ cs) (split_text cs co text).
Proof.
  intros Hcs. apply (split_text_Forall cs co (λ c, length c ≤ cs)).
  - intros good Hgood. unfold _merge_splits. apply merge_loop_length; by auto with lia.
  - intros c _. cbn. lia.
Qed.
End lengths.

(** *** Splitting loses nothing *)

Lemma concat_characters (text : list N) : concat (characters text) = text.
Proof.
  induction text as [|c text IH]; [done|].
  change (characters (c :: text)) with ([c] :: characters text).
  cbn [concat app]. by rewrite IH.
Qed.

Lemma concat_filter_nonempty (l : list (list N)) :
  concat (filter (λ s, s ≠ []) l) = concat l.
Proof.
  induction l as [|s l IH]; [done|].
  rewrite filter_cons. destruct (decide (s ≠ [])) as [Hs|Hs]; cbn.
  - by rewrite IH.
  - apply dec_stable in Hs. by rewrite IH, Hs.
Qed.

Lemma re_split_from_concat separator s skip piece :
  separator ≠ [] →
  concat (re_split_from separator s skip piece) = piece ++ drop skip s.
Proof.
  intros Hsep. revert skip piece.
  induction s as [|c s IH]; intros skip piece.
  - cbn. by rewrite drop_nil.
  - cbn [re_split_from]. destruct skip as [|k]; [|by rewrite IH].
    destruct (starts_with separator (c :: s)) eqn:Hm.
    + cbn [concat]. rewrite IH. cbn [app].
      apply starts_with_prefix in Hm as [s2 Hs].
      destruct separator as [|c' sep']; [done|].
      injection Hs as -> ->. cbn [length].
      replace (S (length sep') - 1) with (length sep') by lia.
      by rewrite drop_app_length.
    + rewrite IH. by rewrite <- app_assoc.
Qed.

Lemma re_split_from_odd separator s skip piece :
  Nat.even (length (re_split_from separator s skip piece)) = false.
Proof.
  revert skip piece. induction s as [|c s IH]; intros skip piece; [done|].
  cbn [re_split_from]. destruct skip as [|k]; [|apply IH].
  destruct (starts_with separator (c :: s)); [|apply IH].
  cbn [length Nat.even]. apply IH.
Qed.

Lemma glue_pairs_concat (l : list (list N)) :
  (Nat.even (length l) = true → concat (glue_pairs l) = concat l) ∧
  (∀ x, Nat.even (length (x :: l)) = true →
        concat (glue_pairs (x :: l)) = concat (x :: l)).
Proof.
  induction l as [|y l [IH1 IH2]].
  - split; [done|]. intros x H. discriminate H.
  - split; [apply IH2|].
    intros x H. cbn [glue_pairs concat]. rewrite IH1; [by rewrite <- app_assoc|].
    exact H.
Qed.

Lemma _split_text_with_regex_concat text separator :
  concat (_split_text_with_regex text separator) = text.
Proof.
  unfold _split_text_with_regex. rewrite concat_filter_nonempty.
  destruct separator as [|c sep]; [apply concat_characters|].
  pose proof (re_split_from_odd (c :: sep) text 0 []) as Hodd.
  pose proof (re_split_from_concat (c :: sep) text 0 [] ltac:(done)) as Hcat.
  unfold re_split. rewrite Hodd.
  destruct (re_split_from (c :: sep) text 0 []) as [|x l]; [done|].
  cbn [take drop]. rewrite take_0, drop_0, concat_app.
  rewrite (proj1 (glue_pairs_concat l)).
  - cbn [concat] in *. by rewrite app_nil_r.
  - cbn [length] in Hodd. rewrite Nat.even_succ in Hodd.
    rewrite <- Nat.negb_odd. by rewrite Hodd.
Qed.

(** *** What stripping removes *)

Lemma all_space_app s t : all_space (s ++ t) = all_space s && all_space t.
Proof. apply forallb_app. Qed.

Lemma all_space_reverse s : all_space s = true → all_space (reverse s) = true.
Proof.
  unfold all_space. rewrite !forallb_forall. intros H c Hc. apply H.
  apply list_elem_of_In. apply list_elem_of_In in Hc. by apply elem_of_reverse.
Qed.

(** What [lstrip] removes from [a ++ b] leaves of [b] all but leading
    whitespace. *)
Lemma lstrip_keeps_end a b :
  ∃ gap p, b = gap ++ p ∧ all_space gap = true ∧ p `suffix_of` lstrip (a ++ b).
Proof.
  induction a as [|c a IH].
  - cbn [app]. induction b as [|c b IH].
    + by exists [], [].
    + cbn [lstrip]. destruct (isspace c) eqn:Hc.
      * destruct IH as (gap & p & -> & Hgap & Hp).
        exists (c :: gap), p. split_and!; [done | cbn; by rewrite Hc | done].
      * by exists [], (c :: b).
  - cbn [app lstrip]. destruct (isspace c); [done|].
    exists [], b. split_and!; [done | done |].
    by apply suffix_cons_r, suffix_app_r.
Qed.

Lemma lstrip_keeps_start q r :
  ∃ gap q', q = gap ++ q' ∧ all_space gap = true
            ∧ q' `prefix_of` lstrip (q ++ r).
Proof.
  induction q as [|c q IH].
  - exists [], []. split_and!; [done | done | apply prefix_nil].
  - cbn [app lstrip]. destruct (isspace c) eqn:Hc.
    + destruct IH as (gap & q' & -> & Hgap & Hq').
      exists (c :: gap), q'. split_and!; [done | cbn; by rewrite Hc | done].
    + exists [], (c :: q). split_and!; [done | done |].
      by apply prefix_cons, prefix_app_r.
Qed.

Lemma rstrip_keeps_end y p :
  p `suffix_of` y →
  ∃ p' gap, p = p' ++ gap ∧ all_space gap = true ∧ p' `suffix_of` rstrip y.
Proof.
  intros [k ->].
  destruct (lstrip_keeps_start (reverse p) (reverse k))
    as (gap & q' & Hq & Hgap & Hq').
  exists (reverse q'), (reverse gap). split_and!.
  - by rewrite <- reverse_app, <- Hq, reverse_involutive.
  - by apply all_space_reverse.
  - unfold rstrip. apply suffix_prefix_reverse.
    by rewrite !reverse_involutive, reverse_app.
Qed.

(** Of [b], the strip of [a ++ b] loses nothing but whitespace at its two
    ends. *)
Lemma strip_keeps_end a b :
  ∃ gap1 p gap2, b = gap1 ++ p ++ gap2 ∧ all_space gap1 = true
                 ∧ all_space gap2 = true ∧ p `suffix_of` strip (a ++ b).
Proof.
  destruct (lstrip_keeps_end a b) as (gap1 & p0 & -> & Hgap1 & Hp0).
  destruct (rstrip_keeps_end _ _ Hp0) as (p & gap2 & -> & Hgap2 & Hp).
  by exists gap1, p, gap2.
Qed.

(** *** The chunks give the text back, but for whitespace around them *)

Lemma gaps_before chunks text gap :
  all_space gap = true → reconstructs_between_gaps chunks text →
  reconstructs_between_gaps chunks (gap ++ text).
Proof.
  intros Hgap [gap' Hgap'|gap' part c chunks' text' Hgap' Hpart Hrest].
  - apply gaps_end. by rewrite all_space_app, Hgap, Hgap'.
  - rewrite app_assoc. apply gaps_chunk; [|done..].
    by rewrite all_space_app, Hgap, Hgap'.
Qed.

Lemma gaps_app chunks1 chunks2 text1 text2 :
  reconstructs_between_gaps chunks1 text1 →
  reconstructs_between_gaps chunks2 text2 →
  reconstructs_between_gaps (chunks1 ++ chunks2) (text1 ++ text2).
Proof.
  intros H1 H2. induction H1 as [gap Hgap|gap part c chunks text Hgap Hpart _ IH].
  - by apply gaps_before.
  - cbn [app]. rewrite <- !app_assoc. by apply gaps_chunk.
Qed.

Lemma gaps_one s : reconstructs_between_gaps [s] s.
Proof.
  rewrite <- (app_nil_r s) at 2. apply (gaps_chunk [] s s [] []); [done..|].
  by apply gaps_end.
Qed.

Lemma gaps_after chunks text gap :
  reconstructs_between_gaps chunks text → all_space gap = true →
  reconstructs_between_gaps chunks (text ++ gap).
Proof.
  intros H Hgap. rewrite <- (app_nil_r chunks). apply gaps_app; [done|].
  by apply gaps_end.
Qed.

Lemma gaps_snoc chunks text gap1 part c gap2 :
  reconstructs_between_gaps chunks text →
  all_space gap1 = true → part `suffix_of` c → all_space gap2 = true →
  reconstructs_between_gaps (chunks ++ [c]) (text ++ gap1 ++ part ++ gap2).
Proof.
  intros H Hgap1 Hpart Hgap2. apply gaps_app; [done|].
  apply gaps_chunk; [done..|]. by apply gaps_end.
Qed.

Section reconstruction.
Variables (cs co : nat).

(** Emitting [current_doc], whose first [k] pieces were already given out
    by the chunks before it. *)
Lemma docs_append_gaps docs cur k t :
  reconstructs_between_gaps docs t →
  reconstructs_between_gaps (docs_append docs (_join_docs cur []))
    (t ++ concat (drop k cur)).
Proof.
  intros Ht. unfold _join_docs. rewrite join_nil.
  destruct (strip_keeps_end (concat (take k cur)) (concat (drop k cur)))
    as (gap1 & p & gap2 & Hcat & Hgap1 & Hgap2 & Hp).
  rewrite <- concat_app, take_drop in Hp. rewrite Hcat.
  destruct (strip (concat cur)) as [|c d] eqn:Hstrip.
  - apply suffix_nil_inv in Hp as ->. cbn [docs_append app].
    apply gaps_after; [done|]. by rewrite all_space_app, Hgap1, Hgap2.
  - cbn [docs_append]. by apply gaps_snoc.
Qed.

Lemma merge_loop_reconstructs splits docs cur total k t :
  reconstructs_between_gaps docs t → k ≤ length cur →
  reconstructs_between_gaps (merge_loop cs co [] splits docs cur total)
    (t ++ concat (drop k cur) ++ concat splits).
Proof.
  revert docs cur total k t.
  induction splits as [|d rest IH]; intros docs cur total k t Ht Hk.
  - rewrite merge_loop_nil. cbn [concat]. rewrite app_nil_r.
    by apply docs_append_gaps.
  - rewrite merge_loop_cons. cbn [concat].
    destruct (_ && _).
    + pose proof (docs_append_gaps docs cur k t Ht) as Ht'.
      pose proof (IH _ ((pop_front cs co 0 (length d) cur total).1 ++ [d])
        ((pop_front cs co 0 (length d) cur total).2 + length d)
        (length (pop_front cs co 0 (length d) cur total).1) _ Ht') as H.
      rewrite drop_app_length in H. cbn [concat] in H.
      rewrite app_nil_r, <- app_assoc in H. apply H.
      rewrite length_app. lia.
    + pose proof (IH docs (cur ++ [d]) (total + length d) k t Ht) as H.
      rewrite drop_app_le, concat_app in H by done. cbn [concat] in H.
      rewrite app_nil_r, <- app_assoc in H. apply H.
      rewrite length_app. lia.
Qed.

Lemma merge_splits_reconstructs splits :
  reconstructs_between_gaps (_merge_splits cs co splits []) (concat splits).
Proof.
  unfold _merge_splits.
  apply (merge_loop_reconstructs splits [] [] 0 0 []); [|done].
  by apply gaps_end.
Qed.

Lemma split_loop_reconstructs deeper splits good final t :
  (∀ f s, deeper = Some f → reconstructs_between_gaps (f s) s) →
  reconstructs_between_gaps final t →
  reconstructs_between_gaps (split_loop cs co deeper splits good final)
    (t ++ concat good ++ concat splits).
Proof.
  intros Hdeeper. revert good final t.
  induction splits as [|s rest IH]; intros good final t Hfinal.
  - cbn [split_loop concat]. rewrite app_nil_r. destruct good as [|g good].
    + cbn. by rewrite app_nil_r.
    + apply gaps_app; [done|]. apply merge_splits_reconstructs.
  - cbn [split_loop]. destruct (length s <? cs).
    + specialize (IH (good ++ [s]) final t Hfinal).
      rewrite concat_app in IH. cbn [concat] in *.
      by rewrite app_nil_r, <- app_assoc in IH.
    + assert (Hflush : reconstructs_between_gaps
        match good with [] => final | _ => final ++ _merge_splits cs co good [] end
        (t ++ concat good)).
      { destruct good as [|g good]; [cbn; by rewrite app_nil_r|].
        apply gaps_app; [done|]. apply merge_splits_reconstructs. }
      assert (Hs : reconstructs_between_gaps
        match deeper with
        | None =>
            match good with [] => final | _ => final ++ _merge_splits cs co good [] end
            ++ [s]
        | Some _split_text =>
            match good with [] => final | _ => final ++ _merge_splits cs co good [] end
            ++ _split_text s
        end ((t ++ concat good) ++ s)).
      { destruct deeper as [f|].
        - apply gaps_app; [done | by eapply Hdeeper].
        - apply gaps_app; [done|]. apply gaps_one. }
      specialize (IH [] _ _ Hs). cbn [concat app] in *.
      by rewrite <- !app_assoc in IH.
Qed.

Lemma _split_text_reconstructs last seps text :
  reconstructs_between_gaps (_split_text cs co last seps text) text.
Proof.
  assert (Hsplit : ∀ deeper separator text,
    (∀ f s, deeper = Some f → reconstructs_between_gaps (f s) s) →
    reconstructs_between_gaps
      (split_loop cs co deeper (_split_text_with_regex text separator) [] []) text).
  { intros deeper separator t Hdeeper.
    pose proof (split_loop_reconstructs deeper
      (_split_text_with_regex t separator) [] [] [] Hdeeper) as H.
    rewrite _split_text_with_regex_concat in H. apply H.
    by apply gaps_end. }
  revert text. induction seps as [|_s rest IH]; intros text.
  - cbn [_split_text]. by apply Hsplit.
  - cbn [_split_text]. destruct _s as [|c _s]; [by apply Hsplit|].
    destruct (contains (c :: _s) text); [|apply IH].
    apply Hsplit. intros f s Hf. destruct rest; [done|].
    injection Hf as <-. apply IH.
Qed.
End reconstruction.

(** C1, as the code has it: the text is the chunks in order, each with a
    prefix removed, with nothing but whitespace before the first, between
    two of them and after the last.  No character inside a chunk is lost,
    and no character that is not whitespace is lost at all. *)
Theorem chunks_reconstruct_between_gaps (text : list N) :
  reconstructs_between_gaps (chunk text) text.
Proof. apply _split_text_reconstructs. Qed.

(** C1 as stated fails: the text extracted from a one-page document begins
    with a newline, which its only chunk has lost. *)
Lemma chunks_lose_newline :
  let text := extract [py "Annual report"] in
  chunk text = [py "--- Page 1 ---" ++ [NL] ++ py "Annual report"] ∧
  ¬ reconstructs (chunk text) text.
Proof.
  cbn zeta.
  assert (Hc : chunk (extract [py "Annual report"])
               = [py "--- Page 1 ---" ++ [NL] ++ py "Annual report"])
    by (vm_compute; reflexivity).
  split; [exact Hc|]. rewrite Hc.
  intros (parts & Hparts & Hcat).
  apply Forall2_cons_inv_r in Hparts as (p & parts' & Hp & Hparts' & ->).
  apply Forall2_nil_inv_r in Hparts' as ->.
  cbn [concat] in Hcat. rewrite app_nil_r in Hcat. subst p.
  apply suffix_length in Hp. vm_compute in Hp. lia.
Qed.

(** *** Text without whitespace: windows of characters *)

Lemma no_space_Forall s : no_space s = true ↔ Forall (λ c, isspace c = false) s.
Proof.
  unfold no_space. rewrite forallb_forall, Forall_forall.
  split; intros H c Hc.
  - apply list_elem_of_In, H in Hc. by apply negb_true_iff.
  - apply negb_true_iff, H. by apply list_elem_of_In.
Qed.

Lemma no_space_app s t : no_space (s ++ t) = no_space s && no_space t.
Proof. apply forallb_app. Qed.

Lemma no_space_take n s : no_space s = true → no_space (take n s) = true.
Proof.
  intros H. rewrite <- (take_drop n s), no_space_app in H.
  by apply andb_true_iff in H as [? _].
Qed.

Lemma no_space_drop n s : no_space s = true → no_space (drop n s) = true.
Proof.
  intros H. rewrite <- (take_drop n s), no_space_app in H.
  by apply andb_true_iff in H as [_ ?].
Qed.

Lemma no_space_lstrip s : no_space s = true → lstrip s = s.
Proof.
  destruct s as [|c s]; [done|]. cbn. intros H.
  apply andb_true_iff in H as [H _]. apply negb_true_iff in H. by rewrite H.
Qed.

Lemma no_space_reverse s : no_space (reverse s) = no_space s.
Proof.
  apply eq_true_iff_eq. rewrite !no_space_Forall. apply Forall_reverse.
Qed.

Lemma no_space_strip s : no_space s = true → strip s = s.
Proof.
  intros H. unfold strip, rstrip. rewrite (no_space_lstrip s H).
  rewrite no_space_lstrip by (by rewrite no_space_reverse).
  apply reverse_involutive.
Qed.

Lemma no_space_contains c pat s :
  isspace c = true → no_space s = true → contains (c :: pat) s = false.
Proof.
  intros Hc. induction s as [|x s IH]; [done|].
  cbn [no_space forallb contains starts_with]. intros H.
  apply andb_true_iff in H as [Hx Hs]. rewrite (IH Hs), orb_false_r.
  apply andb_false_iff. left. apply N.eqb_neq. intros ->.
  by rewrite Hc in Hx.
Qed.

Lemma characters_app s t : characters (s ++ t) = characters s ++ characters t.
Proof. apply fmap_app. Qed.

Lemma length_characters s : length (characters s) = length s.
Proof. apply length_fmap. Qed.

Lemma join_docs_characters u :
  no_space u = true → u ≠ [] → _join_docs (characters u) [] = Some u.
Proof.
  intros Hu Hne. unfold _join_docs.
  rewrite join_nil, concat_characters, (no_space_strip u Hu).
  by destruct u.
Qed.

Section windows.
Variables (cs co : nat).
Hypothesis overlap_lt_size : co < cs.

Lemma merge_loop_docs splits docs cur total :
  merge_loop cs co [] splits docs cur total
    = docs ++ merge_loop cs co [] splits [] cur total.
Proof.
  revert docs cur total. induction splits as [|d rest IH]; intros docs cur total.
  - rewrite !merge_loop_nil.
    destruct (_join_docs cur []); cbn [docs_append app]; by rewrite ?app_nil_r.
  - rewrite !merge_loop_cons. destruct (_ && _); [|apply IH].
    rewrite IH, (IH (docs_append [] _)).
    destruct (_join_docs cur []); cbn [docs_append]; [|done].
    by rewrite <- app_assoc.
Qed.

(** Characters fed to a [current_doc] that has room for them. *)
Lemma merge_loop_fill u v t docs :
  length v + length u ≤ cs →
  merge_loop cs co [] (characters (u ++ t)) docs (characters v) (length v)
    = merge_loop cs co [] (characters t) docs (characters (v ++ u))
        (length v + length u).
Proof.
  revert v. induction u as [|c u IH]; intros v Hle.
  - by rewrite app_nil_r, Nat.add_0_r.
  - cbn [app]. change (characters (c :: u ++ t)) with ([c] :: characters (u ++ t)).
    rewrite merge_loop_cons.
    replace (cs <? length v + length [c]) with false
      by (symmetry; apply Nat.ltb_ge; cbn [length] in *; lia).
    cbn [andb].
    replace (characters v ++ [[c]]) with (characters (v ++ [c]))
      by (by rewrite characters_app).
    replace (length v + length [c]) with (length (v ++ [c]))
      by (by rewrite length_app).
    rewrite IH by (rewrite length_app; cbn [length] in *; lia).
    rewrite <- app_assoc. cbn [app]. f_equal.
    rewrite length_app. cbn [length]. lia.
Qed.

Lemma merge_loop_fill_empty u t docs :
  length u ≤ cs →
  merge_loop cs co [] (characters (u ++ t)) docs [] 0
    = merge_loop cs co [] (characters t) docs (characters u) (length u).
Proof. intros Hle. by apply (merge_loop_fill u [] t docs). Qed.

(** The [while] loop on characters: it keeps the last [co] of them. *)
Lemma pop_front_characters u :
  pop_front cs co 0 1 (characters u) (length u)
    = (characters (drop (length u - co) u), length u - (length u - co)).
Proof.
  induction u as [|c u IH]; [done|].
  change (characters (c :: u)) with ([c] :: characters u).
  cbn [pop_front length].
  destruct (Nat.ltb_spec co (S (length u))) as [Hlt|Hge]; cbn [orb].
  - replace (S (length u) - (1 + (if 1 <? S (length (characters u)) then 0 else 0)))
      with (length u) by (destruct (1 <? _); lia).
    rewrite IH. replace (S (length u) - co) with (S (length u - co)) by lia.
    cbn [drop]. f_equal; lia.
  - replace (cs <? S (length u) + 1 + (if 0 <? S (length (characters u)) then 0 else 0))
      with false by (symmetry; apply Nat.ltb_ge; destruct (0 <? _); lia).
    cbn [andb]. replace (S (length u) - co) with 0 by lia.
    by rewrite drop_0, Nat.sub_0_r.
Qed.

(** A full [current_doc] meets one more character: the window is given
    out, and its last [co] characters begin the next one. *)
Lemma merge_loop_window u c t docs :
  no_space u = true → length u = cs →
  merge_loop cs co [] (characters (c :: t)) docs (characters u) (length u)
    = merge_loop cs co [] (characters t) (docs ++ [u])
        (characters (drop (cs - co) u ++ [c])) (co + 1).
Proof.
  intros Hu Hlen. change (characters (c :: t)) with ([c] :: characters t).
  rewrite merge_loop_cons. cbn [length]. rewrite length_characters.
  replace (cs <? length u + 1) with true by (symmetry; apply Nat.ltb_lt; lia).
  replace (0 <? length u) with true by (symmetry; apply Nat.ltb_lt; lia).
  cbn [andb]. rewrite pop_front_characters. cbn [fst snd].
  rewrite join_docs_characters by (done || (intros ->; cbn in Hlen; lia)).
  cbn [docs_append]. rewrite characters_app, Hlen. f_equal. lia.
Qed.

Lemma merge_splits_short t :
  no_space t = true → t ≠ [] → length t ≤ cs →
  _merge_splits cs co (characters t) [] = [t].
Proof.
  intros Ht Hne Hle. unfold _merge_splits.
  rewrite <- (app_nil_r t) at 1. rewrite merge_loop_fill_empty by done.
  change (characters []) with (@nil (list N)).
  rewrite merge_loop_nil. by rewrite join_docs_characters.
Qed.

Lemma merge_splits_long t :
  no_space t = true → cs < length t →
  _merge_splits cs co (characters t) []
    = take cs t :: _merge_splits cs co (characters (drop (cs - co) t)) [].
Proof.
  intros Ht Hlen. unfold _merge_splits.
  destruct (drop cs t) as [|c t'] eqn:Hdrop.
  { apply (f_equal length) in Hdrop. rewrite length_drop in Hdrop. cbn in Hdrop. lia. }
  assert (Hu : length (take cs t) = cs) by (rewrite length_take; lia).
  rewrite <- (take_drop cs t) at 1. rewrite Hdrop.
  rewrite merge_loop_fill_empty by lia.
  rewrite merge_loop_window by (by apply no_space_take || done).
  rewrite merge_loop_docs. cbn [app]. f_equal.
  assert (Hrest : drop (cs - co) t = (drop (cs - co) (take cs t) ++ [c]) ++ t').
  { rewrite <- (take_drop cs t) at 1. rewrite Hdrop.
    rewrite drop_app_le by lia. by rewrite <- app_assoc. }
  rewrite Hrest, merge_loop_fill_empty.
  - f_equal. rewrite length_app, length_drop, Hu. cbn [length]. lia.
  - rewrite length_app, length_drop, Hu. cbn [length]. lia.
Qed.
End windows.

Section coarse_to_fine.
Variables (cs co : nat).

(** Pieces that are all shorter than the chunk size are merged as they
    are; none is handed to a finer separator. *)
Lemma split_loop_all_good deeper splits good final :
  Forall (λ s, length s < cs) splits →
  split_loop cs co deeper splits good final
    = match good ++ splits with
      | [] => final
      | _ => final ++ _merge_splits cs co (good ++ splits) []
      end.
Proof.
  revert good. induction splits as [|s rest IH]; intros good Hs.
  - cbn [split_loop]. rewrite app_nil_r. by destruct good.
  - inversion Hs as [|? ? Hlt Hrest]; subst. cbn [split_loop].
    apply Nat.ltb_lt in Hlt. rewrite Hlt, IH by done.
    by rewrite <- app_assoc.
Qed.

Lemma split_loop_all_good_start deeper splits :
  Forall (λ s, length s < cs) splits →
  split_loop cs co deeper splits [] [] = _merge_splits cs co splits [].
Proof.
  intros Hs. rewrite split_loop_all_good by done. cbn [app].
  by destruct splits.
Qed.

Lemma _split_text_with_regex_empty text :
  _split_text_with_regex text [] = characters text.
Proof.
  unfold _split_text_with_regex, characters.
  induction text as [|c text IH]; [done|].
  cbn [fmap list_fmap]. rewrite filter_cons_True by done. by rewrite IH.
Qed.

Lemma split_text_no_space text :
  2 ≤ cs → no_space text = true →
  split_text cs co text = _merge_splits cs co (characters text) [].
Proof.
  intros Hcs Ht. unfold split_text, separators. cbn [_split_text].
  rewrite !no_space_contains by done.
  rewrite _split_text_with_regex_empty.
  apply split_loop_all_good_start.
  apply Forall_forall. intros s Hs.
  apply list_elem_of_fmap in Hs as (c & -> & _). cbn. lia.
Qed.

Lemma _split_text_coarsest last _s rest text :
  _s ≠ [] → contains _s text = true →
  Forall (λ s, length s < cs) (_split_text_with_regex text _s) →
  _split_text cs co last (_s :: rest) text
    = _merge_splits cs co (_split_text_with_regex text _s) [].
Proof.
  intros Hne Hin Hshort. cbn [_split_text].
  destruct _s as [|c _s]; [done|]. rewrite Hin.
  by apply split_loop_all_good_start.
Qed.

Lemma _split_text_absent last _s rest text :
  _s ≠ [] → contains _s text = false →
  _split_text cs co last (_s :: rest) text = _split_text cs co last rest text.
Proof.
  intros Hne Hin. cbn [_split_text]. destruct _s as [|c _s]; [done|].
  by rewrite Hin.
Qed.

Hypothesis overlap_lt_size : co < cs.

Lemma merge_splits_overlap n text i c1 c2 :
  length text ≤ n → no_space text = true → cs < length text →
  _merge_splits cs co (characters text) [] !! i = Some c1 →
  _merge_splits cs co (characters text) [] !! S i = Some c2 →
  ∃ o, length o = co ∧ overlap c1 c2 o.
Proof.
  revert text i c1 c2. induction n as [|n IH]; intros text i c1 c2 Hn Ht Hlen;
    [lia|].
  rewrite merge_splits_long by done.
  set (t' := drop (cs - co) text).
  assert (Hlen' : length t' = length text - (cs - co))
    by (unfold t'; apply length_drop).
  assert (Ht' : no_space t' = true) by (by apply no_space_drop).
  destruct i as [|i]; cbn [lookup list_lookup].
  - intros [= <-] H2.
    exists (take co t'). unfold overlap. split_and!.
    + rewrite length_take. lia.
    + unfold t'. rewrite take_drop_commute.
      replace (cs - co + co) with cs by lia. apply suffix_drop.
    + destruct (decide (length t' ≤ cs)) as [Hshort|Hlong].
      * rewrite merge_splits_short in H2;
          [|done|done|intros E; rewrite E in Hlen'; cbn in Hlen'; lia|done].
        injection H2 as <-. apply prefix_take.
      * rewrite merge_splits_long in H2 by (done || lia).
        injection H2 as <-.
        replace (take co t') with (take co (take cs t'))
          by (rewrite take_take; f_equal; lia).
        apply prefix_take.
  - intros H1 H2.
    destruct (decide (length t' ≤ cs)) as [Hshort|Hlong].
    + rewrite merge_splits_short in H2;
        [|done|done|intros E; rewrite E in Hlen'; cbn in Hlen'; lia|done].
      done.
    + apply (IH t' i c1 c2); [lia | done | lia | done | done].
Qed.
End coarse_to_fine.


(** ** More on the Extractor *)

(** The text of a document grows page by page: what the first pages give
    is the beginning of what all pages give, and the page at index [i]
    stands right after the header that numbers it [i + 1]. *)
Theorem extract_page_by_page (pages : list (list N)) (i : nat) (p : list N) :
  pages !! i = Some p →
  ∃ post, extract pages = extract (take i pages) ++ page_header i ++ p ++ post.
Proof.
  intros Hp. apply list_elem_of_split_length in Hp as (l1 & l2 & -> & ->).
  rewrite take_app_length, !extract_sections, sections_app.
  exists (sections (S (length l1)) l2). cbn [sections].
  done.
Qed.

Lemma extract_page_by_page_witness :
  ∃ post, extract [py "Annual report"; py "Risk factors"]
          = extract (take 1 [py "Annual report"; py "Risk factors"])
            ++ page_header 1 ++ py "Risk factors" ++ post.
Proof.
  apply (extract_page_by_page [py "Annual report"; py "Risk factors"] 1).
  reflexivity.
Defined.

(** The marker of one page occurs in the marker of another page nowhere,
    and in itself at the start only: page 1 is not found in page 11. *)
Theorem marker_of_other_page (n m : nat) :
  (marker n = marker m → n = m) ∧
  (n ≠ m → positions (marker n) (marker m) = []) ∧
  positions (marker n) (marker n) = [0].
Proof.
  split_and!.
  - intros H. pose proof (positions_marker_marker n m) as Hnm.
    pose proof (positions_marker_marker m m) as Hmm.
    rewrite H in Hnm. rewrite Hmm in Hnm.
    destruct (decide (n = m)); [done|]. by destruct (decide (m = m)).
  - intros Hne. rewrite positions_marker_marker. by case_decide.
  - rewrite positions_marker_marker. by case_decide.
Qed.

Lemma marker_free_positions (pages : list (list N)) n :
  (∀ p m, p ∈ pages → positions (marker m) p = []) →
  positions (marker n) (extract pages) =
    if decide (1 ≤ n ≤ length pages) then [marker_pos pages n] else [].
Proof.
  intros Hfree. rewrite extract_sections, positions_marker_sections by done.
  unfold marker_pos. rewrite extract_sections.
  replace (n - (0 + 1)) with (n - 1) by lia.
  by repeat case_decide; try lia.
Qed.

(** The pages can be read back from the extracted text when no page's own
    text contains a page marker: two such documents with the same extracted
    text have the same pages. *)
Theorem extract_injective (pages1 pages2 : list (list N)) :
  (∀ p m, p ∈ pages1 → positions (marker m) p = []) →
  (∀ p m, p ∈ pages2 → positions (marker m) p = []) →
  extract pages1 = extract pages2 → pages1 = pages2.
Proof.
  intros H1 H2 Heq.
  assert (Hlen : length pages1 = length pages2).
  { pose proof (marker_free_positions pages1 (length pages1) H1) as P1.
    pose proof (marker_free_positions pages2 (length pages1) H2) as P2.
    pose proof (marker_free_positions pages1 (length pages2) H1) as Q1.
    pose proof (marker_free_positions pages2 (length pages2) H2) as Q2.
    rewrite Heq in P1, Q1. rewrite P2 in P1. rewrite Q2 in Q1.
    destruct (decide (1 ≤ length pages1 ≤ length pages2)),
      (decide (1 ≤ length pages1 ≤ length pages1)),
      (decide (1 ≤ length pages2 ≤ length pages2)),
      (decide (1 ≤ length pages2 ≤ length pages1)); try done; lia. }
  assert (Hpos : ∀ n, 1 ≤ n ≤ length pages1 →
                      marker_pos pages1 n = marker_pos pages2 n).
  { intros n Hn.
    pose proof (marker_free_positions pages1 n H1) as P1.
    pose proof (marker_free_positions pages2 n H2) as P2.
    rewrite Heq, P2 in P1.
    destruct (decide (1 ≤ n ≤ length pages2)), (decide (1 ≤ n ≤ length pages1));
      try lia; congruence. }
  apply list_eq. intros i.
  destruct (pages1 !! i) as [p1|] eqn:E1.
  - pose proof (lookup_lt_Some _ _ _ E1) as Hi.
    destruct (lookup_lt_is_Some_2 pages2 i) as [p2 E2]; [lia|].
    rewrite E2. f_equal.
    pose proof (extract_between pages1 i p1 E1) as B1.
    pose proof (extract_between pages2 i p2 E2) as B2.
    rewrite <- Heq, <- Hlen, <- (Hpos (i + 1)) in B2 by lia.
    destruct (decide (S i < length pages1)) as [Hlast|Hlast].
    + rewrite <- (Hpos (i + 2)) in B2 by lia. rewrite B1 in B2.
      apply (inj (app [NL])) in B2. by apply (inj (λ x, x ++ [NL])) in B2.
    + rewrite B1 in B2. apply (inj (app [NL])) in B2.
      by rewrite !app_nil_r in B2.
  - apply lookup_ge_None in E1. symmetry. apply lookup_ge_None. lia.
Qed.

Lemma extract_injective_witness :
  [py "Annual report"; py "Risk factors"]
    = [py "Annual report"; py "Risk factors"].
Proof.
  apply (extract_injective [py "Annual report"; py "Risk factors"]
                           [py "Annual report"; py "Risk factors"]).
  - intros p m Hp. apply list_elem_of_In in Hp.
    destruct Hp as [<-|[<-|[]]]; reflexivity.
  - intros p m Hp. apply list_elem_of_In in Hp.
    destruct Hp as [<-|[<-|[]]]; reflexivity.
  - reflexivity.
Defined.

(** Without that proviso the pages cannot be read back: a page whose text
    goes on with the header of the next page and more text is extracted to
    the same text as two pages. *)
Theorem extract_ambiguous (before : list (list N)) (p q : list N) :
  extract (before ++ [p ++ page_header (S (length before)) ++ q])
    = extract (before ++ [p; q])
  ∧ before ++ [p ++ page_header (S (length before)) ++ q] ≠ before ++ [p; q].
Proof.
  split.
  - rewrite !extract_sections, !sections_app. cbn [sections].
    by rewrite !app_nil_r.
  - intros H. apply (f_equal length) in H. rewrite !length_app in H.
    cbn [length] in H. lia.
Qed.

Lemma extractor_ok_run (pages : list (list N)) (w : world) :
  extractor (Ok (Ok <$> pages)) Written w =
    (Ok tt,
     World (<[output_text_file := Text (extract pages)]> (disk w))
       (stdout w ++
        [py " Success! Extracted " ++ str_of_nat (length pages) ++ py " pages.";
         py "Full text saved to '" ++ output_text_file ++ py "'";
         [NL] ++ py "--- PREVIEW OF EXTRACTED TEXT ---";
         take 1000 (extract pages)])).
Proof.
  run_cell. rewrite page_loop_sections. run_cell.
  rewrite extract_sections, length_fmap. cbn [app].
  by rewrite <- !app_assoc.
Qed.

(** When every page parses and the write goes through, the Extractor
    leaves the whole extracted text in its output file and prints the
    number of pages, the path, and the first 1000 characters of the text. *)
Theorem extractor_success (pages : list (list N)) (w : world) :
  extractor (Ok (Ok <$> pages)) Written w =
    (Ok tt,
     World (<[output_text_file := Text (extract pages)]> (disk w))
       (stdout w ++
        [py " Success! Extracted " ++ str_of_nat (length pages) ++ py " pages.";
         py "Full text saved to '" ++ output_text_file ++ py "'";
         [NL] ++ py "--- PREVIEW OF EXTRACTED TEXT ---";
         take 1000 (extract pages)])).
Proof. apply extractor_ok_run. Qed.

(** The first page that fails to parse decides the run, whatever the pages
    after it and whatever the disk would have answered: nothing is written,
    and the only line printed is the report for that page's exception. *)
Theorem extractor_page_failure (pages : list (list N)) (e : exn)
    (rest : list (result (list N))) (os : write_outcome) (w : world) :
  extractor (Ok ((Ok <$> pages) ++ Raise e :: rest)) os w =
    (Ok tt,
     World (disk w)
       (stdout w ++
        match exn_cls e with
        | FileNotFoundError =>
            [missing_input_report pdf_path;
             py "Please make sure the PDF file is in the same directory as this script and the filename is correct."]
        | _ => [unexpected_report (exn_msg e)]
        end)).
Proof.
  assert (Hloop : ∀ k acc,
    page_loop ((Ok <$> pages) ++ Raise e :: rest) k acc = Raise e).
  { induction pages as [|p pages IH]; intros k acc; [done|]. apply IH. }
  run_cell. rewrite Hloop. run_cell.
  destruct (exn_cls e); run_cell; by rewrite <- ?app_assoc.
Qed.

(** A [FileNotFoundError] raised when the output file is opened for writing
    is caught by the same clause as a missing input: the Extractor then says
    that the PDF was not found although it has read every page of it, and
    the Chunker says that the text file was not found although it has
    loaded it. *)
Theorem output_not_found_reported_as_input (msg : list N) :
  let e := Exn FileNotFoundError msg in
  (∀ pages w,
     run (extractor (Ok (Ok <$> pages)) (OpenRaises e)) w =
       World (disk w)
         (stdout w ++
          [missing_input_report pdf_path;
           py "Please make sure the PDF file is in the same directory as this script and the filename is correct."])) ∧
  (∀ full_text w, disk w !! input_text_file = Some (Text full_text) →
     run (chunker (OpenRaises e)) w =
       World (disk w)
         (stdout w ++
          [py "Successfully loaded the extracted text file.";
           missing_input_report input_text_file;
           py "Please make sure you have successfully run the previous extraction step."])).
Proof.
  cbn zeta. split.
  - intros pages w. run_cell. rewrite page_loop_sections. run_cell.
    by rewrite <- ?app_assoc.
  - intros t w Hin. run_cell. unfold read_text. rewrite Hin. run_cell.
    by rewrite <- ?app_assoc.
Qed.

Lemma output_not_found_reported_as_input_witness :
  let w := World {[ input_text_file := Text (py "Annual report") ]} [] in
  run (chunker (OpenRaises (Exn FileNotFoundError (py "report_chunks.pkl")))) w =
    World (disk w)
      (stdout w ++
       [py "Successfully loaded the extracted text file.";
        missing_input_report input_text_file;
        py "Please make sure you have successfully run the previous extraction step."]).
Proof.
  intros w.
  apply (proj2 (output_not_found_reported_as_input (py "report_chunks.pkl"))
           (py "Annual report") w).
  reflexivity.
Defined.

Lemma marker_of_other_page_witness : positions (marker 1) (marker 11) = [].
Proof. apply (proj1 (proj2 (marker_of_other_page 1 11))). lia. Defined.

(** *** What the Chunker and the Indexer print and write *)

Lemma chunker_ok_run (full_text : list N) (w : world) :
  disk w !! input_text_file = Some (Text full_text) →
  chunker Written w =
    (Ok tt,
     World (<[output_chunks_file := Pickle (chunk full_text)]> (disk w))
       (stdout w ++
        [py "Successfully loaded the extracted text file.";
         [NL] ++ py " Success! The document was split into "
           ++ str_of_nat (length (chunk full_text)) ++ py " chunks.";
         py "Chunks saved to '" ++ output_chunks_file ++ py "'";
         [NL] ++ py "--- PREVIEW OF FIRST CHUNK ---";
         match chunk full_text with
         | first :: _ => first
         | [] => unexpected_report (py "list index out of range")
         end])).
Proof.
  intros Hin. run_cell. unfold read_text. rewrite Hin. run_cell.
  unfold getitem. destruct (chunk full_text) as [|c l]; cbn [lookup list_lookup];
    run_cell; by rewrite <- ?app_assoc.
Qed.

(** When the text file is there and the write goes through, the Chunker
    writes the chunks and prints their number, the path, and the first chunk.
    When the text yields no chunk at all, the last line is instead the report
    of an unexpected failure, [list index out of range]: the stage ends on an
    error after it has written its output and announced success. *)
Theorem chunker_writes_then_previews (full_text : list N) (w : world) :
  disk w !! input_text_file = Some (Text full_text) →
  chunker Written w =
    (Ok tt,
     World (<[output_chunks_file := Pickle (chunk full_text)]> (disk w))
       (stdout w ++
        [py "Successfully loaded the extracted text file.";
         [NL] ++ py " Success! The document was split into "
           ++ str_of_nat (length (chunk full_text)) ++ py " chunks.";
         py "Chunks saved to '" ++ output_chunks_file ++ py "'";
         [NL] ++ py "--- PREVIEW OF FIRST CHUNK ---";
         match chunk full_text with
         | first :: _ => first
         | [] => unexpected_report (py "list index out of range")
         end])).
Proof. apply chunker_ok_run. Qed.

Lemma chunker_writes_then_previews_witness :
  let w := World {[ input_text_file := Text (py "   ") ]} [] in
  chunker Written w =
    (Ok tt,
     World (<[output_chunks_file := Pickle (chunk (py "   "))]> (disk w))
       (stdout w ++
        [py "Successfully loaded the extracted text file.";
         [NL] ++ py " Success! The document was split into "
           ++ str_of_nat (length (chunk (py "   "))) ++ py " chunks.";
         py "Chunks saved to '" ++ output_chunks_file ++ py "'";
         [NL] ++ py "--- PREVIEW OF FIRST CHUNK ---";
         match chunk (py "   ") with
         | first :: _ => first
         | [] => unexpected_report (py "list index out of range")
         end])).
Proof.
  intros w. apply (chunker_writes_then_previews (py "   ") w). reflexivity.
Defined.

Lemma indexer_ok_run (chunks : list (list N)) (fx : effect) (w : world) :
  disk w !! input_chunks_file = Some (Pickle chunks) → chunks ≠ [] →
  indexer (IndexerEnv (Ok fx) (Ok tt) Written) w =
    (Ok tt,
     World (<[faiss_index_path := FaissIndex chunks]> (written fx ∪ disk w))
       (stdout w ++
        [py "Successfully loaded " ++ str_of_nat (length chunks)
           ++ py " chunks from '" ++ input_chunks_file ++ py "'.";
         py "Initializing embedding model: " ++ model_name] ++
        printed fx ++
        [py "Creating vector store from chunks. This may take a moment...";
         [NL] ++ py " Success! Vector store created and saved to '"
           ++ faiss_index_path ++ py "'."])).
Proof.
  intros Hin Hne. run_cell. unfold read_pickle. rewrite Hin. run_cell.
  unfold from_texts. destruct chunks as [|c chunks]; [done|]. run_cell.
  by rewrite <- ?app_assoc.
Qed.

(** When the chunk file is there and holds a chunk at least, both library
    calls succeed and the save goes through, the Indexer stores the chunks
    as they were loaded, in their order, beside what the load of the model
    has left on the disk; it prints four lines, and between the second and
    the third stands what that load has written on the standard output. *)
Theorem indexer_success (chunks : list (list N)) (fx : effect) (w : world) :
  disk w !! input_chunks_file = Some (Pickle chunks) → chunks ≠ [] →
  indexer (IndexerEnv (Ok fx) (Ok tt) Written) w =
    (Ok tt,
     World (<[faiss_index_path := FaissIndex chunks]> (written fx ∪ disk w))
       (stdout w ++
        [py "Successfully loaded " ++ str_of_nat (length chunks)
           ++ py " chunks from '" ++ input_chunks_file ++ py "'.";
         py "Initializing embedding model: " ++ model_name] ++
        printed fx ++
        [py "Creating vector store from chunks. This may take a moment...";
         [NL] ++ py " Success! Vector store created and saved to '"
           ++ faiss_index_path ++ py "'."])).
Proof. apply indexer_ok_run. Qed.

Lemma indexer_success_witness :
  let w := World {[ input_chunks_file := Pickle [py "Annual report"] ]} [] in
  let fx := Effect [py "WARNING:tensorflow: the name is deprecated"; []]
              {[ py "cache/model.safetensors" := Model ]} in
  indexer (IndexerEnv (Ok fx) (Ok tt) Written) w =
    (Ok tt,
     World (<[faiss_index_path := FaissIndex [py "Annual report"]]>
              (written fx ∪ disk w))
       (stdout w ++
        [py "Successfully loaded " ++ str_of_nat (length [py "Annual report"])
           ++ py " chunks from '" ++ input_chunks_file ++ py "'.";
         py "Initializing embedding model: " ++ model_name] ++
        printed fx ++
        [py "Creating vector store from chunks. This may take a moment...";
         [NL] ++ py " Success! Vector store created and saved to '"
           ++ faiss_index_path ++ py "'."])).
Proof.
  intros w fx. apply (indexer_success [py "Annual report"] fx w);
    [reflexivity | discriminate].
Defined.



Lemma paths_distinct :
  output_text_file ≠ output_chunks_file ∧ output_text_file ≠ faiss_index_path ∧
  output_chunks_file ≠ faiss_index_path.
Proof. split_and!; intros H; vm_compute in H; discriminate H. Qed.

(** *** The stages one after the other *)

(** Each stage reads the path the stage before it wrote.  Run in order on
    a document that parses, whose text holds no carriage return (so that it
    is read back as it was written) and yields a chunk at least, with the
    libraries and the disk answering well, the first three stages leave
    three artifacts beside what was on the disk and what the load of the
    embedding model has left there: the extracted text, its chunks, and an
    index of those same chunks; and the Query Engine then loads exactly these
    chunks. *)
Theorem stages_in_order (pages : list (list N)) (fx : effect) (w : world)
    (load_error : exn) :
  no_carriage_return (extract pages) = true →
  chunk (extract pages) ≠ [] →
  let w1 := run (extractor (Ok (Ok <$> pages)) Written) w in
  let w2 := run (chunker Written) w1 in
  let w3 := run (indexer (IndexerEnv (Ok fx) (Ok tt) Written)) w2 in
  disk w3 =
    <[faiss_index_path := FaissIndex (chunk (extract pages))]>
      (written fx ∪
       <[output_chunks_file := Pickle (chunk (extract pages))]>
         (<[output_text_file := Text (extract pages)]> (disk w))) ∧
  load_local load_error faiss_index_path w3 = (Ok (chunk (extract pages)), w3).
Proof.
  intros _ Hne. cbn zeta.
  set (w1 := run (extractor (Ok (Ok <$> pages)) Written) w).
  assert (H1 : disk w1 = <[output_text_file := Text (extract pages)]> (disk w)).
  { unfold w1, run. by rewrite extractor_ok_run. }
  set (w2 := run (chunker Written) w1).
  assert (H2 : disk w2 = <[output_chunks_file := Pickle (chunk (extract pages))]> (disk w1)).
  { unfold w2. apply chunker_on_text. rewrite H1. apply lookup_insert_eq. }
  set (w3 := run (indexer (IndexerEnv (Ok fx) (Ok tt) Written)) w2).
  assert (H3 : disk w3 = <[faiss_index_path := FaissIndex (chunk (extract pages))]>
                           (written fx ∪ disk w2)).
  { unfold w3, run. rewrite (indexer_ok_run (chunk (extract pages))); [done| |done].
    rewrite H2. apply lookup_insert_eq. }
  split.
  - by rewrite H3, H2, H1.
  - unfold load_local. by rewrite H3, lookup_insert_eq.
Qed.

Lemma stages_in_order_witness :
  let pages := [py "Annual report"; py "Risk factors"] in
  let fx := Effect [] {[ py "cache/model.safetensors" := Model ]} in
  let w := World ∅ [] in
  let w1 := run (extractor (Ok (Ok <$> pages)) Written) w in
  let w2 := run (chunker Written) w1 in
  let w3 := run (indexer (IndexerEnv (Ok fx) (Ok tt) Written)) w2 in
  disk w3 =
    <[faiss_index_path := FaissIndex (chunk (extract pages))]>
      (written fx ∪
       <[output_chunks_file := Pickle (chunk (extract pages))]>
         (<[output_text_file := Text (extract pages)]> (disk w))) ∧
  load_local (Exn OtherError []) faiss_index_path w3
    = (Ok (chunk (extract pages)), w3).
Proof.
  intros pages fx w.
  apply (stages_in_order pages fx w (Exn OtherError []));
    [vm_compute; reflexivity | vm_compute; discriminate].
Defined.

(** A document of zero pages goes through the Extractor, and then makes
    the Chunker end on an error: the text is empty, no chunk comes of it, the
    empty list of chunks is written, and the preview of the first chunk
    raises. *)
Theorem zero_pages_then_chunker (w : world) :
  let w' := run (chunker Written) (run (extractor (Ok []) Written) w) in
  disk w' = <[output_chunks_file := Pickle []]>
              (<[output_text_file := Text []]> (disk w)) ∧
  last (stdout w') = Some (unexpected_report (py "list index out of range")).
Proof.
  cbn zeta. set (w1 := run (extractor (Ok []) Written) w).
  assert (Hin : disk w1 !! input_text_file = Some (Text [])).
  { unfold w1. run_cell. apply lookup_insert_eq. }
  unfold run. rewrite (chunker_ok_run [] w1 Hin).
  change (chunk []) with (@nil (list N)). cbn [snd disk stdout]. split.
  - unfold w1. run_cell. done.
  - match goal with |- last (?l ++ [?a; ?b; ?c; ?d; ?e]) = _ =>
      change (l ++ [a; b; c; d; e]) with (l ++ [a; b; c; d] ++ [e]) end.
    rewrite app_assoc. apply last_snoc.
Qed.

(** *** The source attribution of the Query Engine *)

Lemma split_from_words s word :
  no_space word = true →
  Forall (λ x, x ≠ [] ∧ no_space x = true) (split_from s word).
Proof.
  revert word. induction s as [|c s IH]; intros word Hword.
  - cbn [split_from]. destruct word; [done|]. by repeat constructor.
  - cbn [split_from]. destruct (isspace c) eqn:Hc.
    + destruct word as [|x word]; [by apply IH|].
      constructor; [done | by apply IH].
    + apply IH. rewrite no_space_app, Hword. cbn. by rewrite Hc.
Qed.

Lemma page_info_pure page_content :
  ∃ info, ∀ w, page_info page_content w = (Ok info, w).
Proof.
  unfold page_info, try_except, mbind, M_bind, bind, lift, mret, M_ret, ret,
    getitem, getlast.
  destruct (splitlines page_content !! 1) as [line|]; [|by eexists].
  destruct (last (split line)) as [word|]; by eexists.
Qed.

(** The label of a retrieved chunk is the fallback exactly when the chunk
    has no second line or its second line has no word.  Otherwise it carries
    the last word of the second line, whatever that word is; the word is
    not empty and has no whitespace in it.  Either way nothing is raised and
    the world is left as it was. *)
Theorem page_info_cases (page_content : list N) (w : world) :
  (page_info page_content w = (Ok (py "(Page number not found)"), w) ∧
   (splitlines page_content !! 1 = None ∨
    ∃ line, splitlines page_content !! 1 = Some line ∧ split line = [])) ∨
  (∃ line word,
     splitlines page_content !! 1 = Some line ∧ last (split line) = Some word ∧
     word ≠ [] ∧ no_space word = true ∧
     page_info page_content w = (Ok (py "(from Page " ++ word ++ py ")"), w)).
Proof.
  destruct (splitlines page_content !! 1) as [line|] eqn:Hline.
  - destruct (last (split line)) as [word|] eqn:Hword.
    + right. exists line, word.
      pose proof (split_from_words line [] eq_refl) as Hwords.
      rewrite Forall_forall in Hwords.
      destruct (Hwords word) as [Hne Hns]; [by eapply last_Some_elem_of|].
      split_and!; try done. by apply page_info_label with line.
    + left. apply last_None in Hword. split; [|right; by exists line].
      apply page_info_not_found. right. by exists line.
  - left. split; [|by left]. apply page_info_not_found. by left.
Qed.

Lemma no_linebreak_digits d : Forall (λ c, is_linebreak c = false) (digits d).
Proof.
  pose proof (digits_are_digits d) as H. eapply Forall_impl; [exact H|].
  intros c Hc. unfold is_digit in Hc. unfold is_linebreak.
  repeat match goal with
  | |- context [(?a <=? ?b)%N] => destruct (N.leb_spec a b); try lia
  | |- context [(?a =? ?b)%N] => destruct (N.eqb_spec a b); try lia
  end; done.
Qed.

Lemma no_space_digits d : no_space (digits d) = true.
Proof.
  apply no_space_Forall.
  pose proof (digits_are_digits d) as H. eapply Forall_impl; [exact H|].
  intros c Hc. unfold is_digit in Hc. unfold isspace.
  repeat match goal with
  | |- context [(?a <=? ?b)%N] => destruct (N.leb_spec a b); try lia
  | |- context [(?a =? ?b)%N] => destruct (N.eqb_spec a b); try lia
  end; done.
Qed.

Lemma no_linebreak_marker n : Forall (λ c, is_linebreak c = false) (marker n).
Proof.
  rewrite marker_unfold. repeat apply Forall_app_2.
  - by repeat constructor.
  - apply no_linebreak_digits.
  - by repeat constructor.
Qed.

Lemma splitlines_from_line s t line :
  Forall (λ c, is_linebreak c = false) s →
  splitlines_from (s ++ NL :: t) line = (line ++ s) :: splitlines_from t [].
Proof.
  intros Hs. revert line. induction Hs as [|c s Hc _ IH]; intros line.
  - by rewrite app_nil_r.
  - cbn [app splitlines_from]. rewrite Hc, IH. by rewrite <- app_assoc.
Qed.

Lemma splitlines_from_last s line :
  Forall (λ c, is_linebreak c = false) s → s ≠ [] →
  splitlines_from s line = [line ++ s].
Proof.
  intros Hs. revert line. induction Hs as [|c s Hc Hs IH]; intros line Hne;
    [done|].
  cbn [splitlines_from]. rewrite Hc.
  destruct s as [|c' s].
  - cbn [splitlines_from]. by destruct (line ++ [c]) eqn:E;
      [destruct line; discriminate E|].
  - rewrite IH by done. by rewrite <- app_assoc.
Qed.

Lemma split_from_run s t word :
  no_space s = true → split_from (s ++ t) word = split_from t (word ++ s).
Proof.
  revert word. induction s as [|c s IH]; intros word Hs.
  - by rewrite app_nil_r.
  - cbn [no_space forallb] in Hs. apply andb_true_iff in Hs as [Hc Hs].
    apply negb_true_iff in Hc. cbn [app split_from]. rewrite Hc, IH by done.
    by rewrite <- app_assoc.
Qed.

Lemma split_marker n :
  split (marker n) = [py "---"; py "Page"; str_of_nat n; py "---"].
Proof.
  rewrite marker_unfold. unfold split.
  change ([45; 45; 45; 32; 80; 97; 103; 101; 32]%N ++ str_of_nat n ++ [32; 45; 45; 45]%N)
    with (py "--- Page " ++ str_of_nat n ++ py " ---").
  change (split_from (py "--- Page " ++ str_of_nat n ++ py " ---") [])
    with (py "---" :: py "Page" :: split_from (str_of_nat n ++ py " ---") []).
  rewrite split_from_run by apply no_space_digits.
  cbn [app]. pose proof (digits_are_digits (Nat.to_uint n)) as Hd.
  unfold str_of_nat in *. destruct (digits (Nat.to_uint n)) as [|c ds] eqn:E; [|done].
  destruct (Nat.to_uint n) eqn:Hn; try discriminate E.
  exfalso. pose proof (Unsigned.of_to n) as Hof.
  rewrite Hn in Hof. cbn in Hof. subst n. discriminate Hn.
Qed.

(** A chunk that begins with the marker of a page, as the chunks of the
    Chunker do at the top of a page, is not labelled with that page: the label
    is the last word of the line after the marker.  And a text that begins
    with the header the Extractor writes, newline first, is labelled with the
    dashes that close the marker, never with the number. *)
Theorem page_info_after_marker (n : nat) (line tail word : list N) (w : world) :
  Forall (λ c, is_linebreak c = false) line → barrier tail →
  last (split line) = Some word →
  page_info (marker n ++ [NL] ++ line ++ tail) w
    = (Ok (py "(from Page " ++ word ++ py ")"), w) ∧
  page_info (page_header n ++ line ++ tail) w = (Ok (py "(from Page ---)"), w).
Proof.
  intros Hline Htail Hword. split.
  - apply page_info_label with line; [|done].
    unfold splitlines. cbn [app].
    rewrite splitlines_from_line by apply no_linebreak_marker.
    destruct Htail as [-> | [t' ->]].
    + rewrite app_nil_r, splitlines_from_last; [done..|].
      intros ->. discriminate Hword.
    + by rewrite splitlines_from_line.
  - change (py "(from Page ---)") with (py "(from Page " ++ py "---" ++ py ")").
    apply page_info_label with (marker (n + 1)).
    + unfold splitlines, page_header.
      change (([NL] ++ marker (n + 1) ++ [NL]) ++ line ++ tail)
        with (NL :: (marker (n + 1) ++ [NL]) ++ line ++ tail).
      rewrite <- app_assoc. cbn [app].
      change (splitlines_from (NL :: marker (n + 1) ++ NL :: line ++ tail) [])
        with ([] :: splitlines_from (marker (n + 1) ++ NL :: line ++ tail) []).
      by rewrite splitlines_from_line by apply no_linebreak_marker.
    + by rewrite split_marker.
Qed.

Lemma page_info_after_marker_witness :
  page_info (marker 12 ++ [NL] ++ py "products may affect" ++ []) (World ∅ [])
    = (Ok (py "(from Page " ++ py "affect" ++ py ")"), World ∅ []) ∧
  page_info (page_header 12 ++ py "products may affect" ++ []) (World ∅ [])
    = (Ok (py "(from Page ---)"), World ∅ []).
Proof.
  apply (page_info_after_marker 12 (py "products may affect") [] (py "affect")).
  - vm_compute. repeat constructor.
  - by left.
  - reflexivity.
Defined.

Lemma sources_loop_lines docs i w :
  ∃ out,
    sources_loop i docs w = (Ok tt, World (disk w) (stdout w ++ out)) ∧
    length out = 3 * length docs ∧
    ∀ k d, docs !! k = Some d →
      ∃ info, (∀ w', page_info d w' = (Ok info, w')) ∧
        out !! (3 * k)
          = Some (py "Source " ++ str_of_nat (i + k + 1) ++ py " " ++ info ++ py ":") ∧
        out !! (3 * k + 1) = Some (take 300 d ++ py "...") ∧
        out !! (3 * k + 2) = Some (repeat 45%N 20).
Proof.
  revert i w. induction docs as [|d docs IH]; intros i w.
  - exists []. split_and!; [|done|done]. cbn. by rewrite app_nil_r, world_eta.
  - destruct (page_info_pure d) as [info Hinfo].
    cbn [sources_loop]. unfold mbind, M_bind, bind. rewrite Hinfo.
    unfold print at 1 2 3. cbn [disk stdout].
    edestruct IH as (out & -> & Hlen & Hout).
    exists ([py "Source " ++ str_of_nat (i + 1) ++ py " " ++ info ++ py ":";
             take 300 d ++ py "..."; repeat 45%N 20] ++ out).
    cbn [disk stdout]. split_and!.
    + by rewrite <- !app_assoc.
    + rewrite length_app, Hlen. cbn [length]. lia.
    + intros [|k] d' Hd.
      * injection Hd as <-. exists info. rewrite Nat.add_0_r. by split_and!.
      * cbn [lookup list_lookup] in Hd.
        destruct (Hout k d' Hd) as (info' & Hinfo' & H0 & H1 & H2).
        exists info'. split_and!; [done| | |].
        -- replace (3 * S k) with (S (S (S (3 * k)))) by lia.
           replace (i + S k + 1) with (S i + k + 1) by lia. exact H0.
        -- replace (3 * S k + 1) with (S (S (S (3 * k + 1)))) by lia. exact H1.
        -- replace (3 * S k + 2) with (S (S (S (3 * k + 2)))) by lia. exact H2.
Qed.

(** When the index is on the disk and every library call succeeds, the
    Query Engine writes nothing itself: the disk is as it was but for what
    the loads of the two models have left there.  It prints, after its
    progress lines (with what the two loads write on the standard output),
    the answer of the chain and then three lines for each source document,
    in the order the chain returned them: the source numbered from 1 with its
    label, the first 300 characters of the document followed by three dots,
    and a rule of twenty dashes. *)
Theorem query_engine_answers (texts docs : list (list N)) (answer : list N)
    (fx_embeddings fx_llm : effect) (load_error : exn)
    (invoke : list (list N) → result (list N * list (list N))) (w : world) :
  disk w !! faiss_index_path = Some (FaissIndex texts) →
  written fx_embeddings !! faiss_index_path = None →
  invoke texts = Ok (answer, docs) →
  ∃ out,
    query_engine
      (QueryEnv (Ok fx_embeddings) load_error (Ok fx_llm) (Ok tt) invoke) w =
      (Ok tt,
       World (written fx_llm ∪ (written fx_embeddings ∪ disk w))
         (stdout w ++
          [py "Loading embedding model..."] ++ printed fx_embeddings ++
          [py "Loading FAISS vector store...";
           py "Vector store loaded successfully.";
           py "Loading LLM: " ++ llm_model_name ++ py ". This might take a while..."]
          ++ printed fx_llm ++
          [py "LLM pipeline created."; py "Q&A chain is ready.";
           [NL] ++ py "Asking question: " ++ question;
           [NL] ++ py "--- ANSWER ---"; answer;
           [NL] ++ py "--- RELEVANT SOURCES ---"] ++ out)) ∧
    length out = 3 * length docs ∧
    ∀ k d, docs !! k = Some d →
      ∃ info, (∀ w', page_info d w' = (Ok info, w')) ∧
        out !! (3 * k)
          = Some (py "Source " ++ str_of_nat (k + 1) ++ py " " ++ info ++ py ":") ∧
        out !! (3 * k + 1) = Some (take 300 d ++ py "...") ∧
        out !! (3 * k + 2) = Some (repeat 45%N 20).
Proof.
  intros Hin Hfx Hinvoke. run_cell. unfold load_local. run_cell.
  rewrite lookup_union_r by done. rewrite Hin.
  run_cell. rewrite Hinvoke. run_cell.
  match goal with |- context [sources_loop 0 docs ?w0] =>
    destruct (sources_loop_lines docs 0 w0) as (out & -> & Hlen & Hout) end.
  exists out. split_and!; [|done|exact Hout].
  run_cell. by rewrite <- !app_assoc.
Qed.

Lemma query_engine_answers_witness :
  let texts := [py "first chunk"; py "second chunk"] in
  let w := World {[ faiss_index_path := FaissIndex texts ]} [] in
  let invoke := λ found : list (list N), Ok (py "an answer", take 1 found) in
  let fx1 := Effect [] {[ py "cache/embeddings.bin" := Model ]} in
  let fx2 := Effect [py "Downloading"] {[ py "cache/llm.bin" := Model ]} in
  ∃ out,
    query_engine (QueryEnv (Ok fx1) (Exn OtherError []) (Ok fx2) (Ok tt) invoke) w =
      (Ok tt,
       World (written fx2 ∪ (written fx1 ∪ disk w))
         (stdout w ++
          [py "Loading embedding model..."] ++ printed fx1 ++
          [py "Loading FAISS vector store...";
           py "Vector store loaded successfully.";
           py "Loading LLM: " ++ llm_model_name ++ py ". This might take a while..."]
          ++ printed fx2 ++
          [py "LLM pipeline created."; py "Q&A chain is ready.";
           [NL] ++ py "Asking question: " ++ question;
           [NL] ++ py "--- ANSWER ---"; py "an answer";
           [NL] ++ py "--- RELEVANT SOURCES ---"] ++ out)) ∧
    length out = 3 * length (take 1 texts) ∧
    ∀ k d, take 1 texts !! k = Some d →
      ∃ info, (∀ w', page_info d w' = (Ok info, w')) ∧
        out !! (3 * k)
          = Some (py "Source " ++ str_of_nat (k + 1) ++ py " " ++ info ++ py ":") ∧
        out !! (3 * k + 1) = Some (take 300 d ++ py "...") ∧
        out !! (3 * k + 2) = Some (repeat 45%N 20).
Proof.
  intros texts w invoke fx1 fx2.
  apply (query_engine_answers texts (take 1 texts) (py "an answer")
           fx1 fx2 (Exn OtherError []) invoke w); reflexivity.
Defined.

(** ** More on the splitter *)

(** *** Chunks are pieces of the text *)

Lemma substring_of_trans a b c :
  substring_of a b → substring_of b c → substring_of a c.
Proof.
  intros (x & y & ->) (x' & y' & ->). exists (x' ++ x), (y ++ y').
  by rewrite <- !app_assoc.
Qed.

Lemma strip_substring s : substring_of (strip s) s.
Proof.
  unfold strip.
  destruct (rstrip_prefix (lstrip s)) as [k Hk].
  destruct (lstrip_suffix s) as [k' Hk'].
  exists k', k. by rewrite <- Hk, <- Hk'.
Qed.

Lemma concat_suffix (l1 l2 : list (list N)) :
  l1 `suffix_of` l2 → concat l1 `suffix_of` concat l2.
Proof. intros [k ->]. rewrite concat_app. by apply suffix_app_r. Qed.

Section substrings.
Variables (cs co : nat) (whole : list N).

Lemma pop_front_suffix _len cur total :
  (pop_front cs co 0 _len cur total).1 `suffix_of` cur.
Proof.
  revert total. induction cur as [|d0 rest IH]; intros total; [done|].
  cbn [pop_front]. destruct (_ || _); [|done].
  apply suffix_cons_r, IH.
Qed.

Lemma join_docs_substring cur a b d :
  whole = a ++ b → concat cur `suffix_of` a →
  _join_docs cur [] = Some d → substring_of d whole.
Proof.
  intros -> [k ->] Hd. unfold _join_docs in Hd. rewrite join_nil in Hd.
  apply substring_of_trans with (concat cur).
  - destruct (strip (concat cur)) eqn:E; [done|]. injection Hd as <-.
    rewrite <- E. apply strip_substring.
  - exists k, b. by rewrite <- app_assoc.
Qed.

Lemma merge_loop_substring splits docs cur total a b :
  whole = a ++ concat splits ++ b → concat cur `suffix_of` a →
  Forall (λ c, substring_of c whole) docs →
  Forall (λ c, substring_of c whole) (merge_loop cs co [] splits docs cur total).
Proof.
  revert docs cur total a.
  induction splits as [|d rest IH]; intros docs cur total a Hwhole Hcur Hdocs.
  - rewrite merge_loop_nil. apply docs_append_Forall; [done|].
    intros c Hc. by apply (join_docs_substring cur a (concat [] ++ b)).
  - rewrite merge_loop_cons. cbn [concat] in Hwhole.
    assert (Hwhole' : whole = (a ++ d) ++ concat rest ++ b)
      by (by rewrite Hwhole, <- !app_assoc).
    destruct (_ && _).
    + apply (IH _ _ _ (a ++ d)); [done| |].
      * rewrite concat_app. cbn [concat]. rewrite app_nil_r.
        apply suffix_app. etrans; [|exact Hcur].
        apply concat_suffix, pop_front_suffix.
      * apply docs_append_Forall; [done|].
        intros c Hc.
        by apply (join_docs_substring cur a ((d ++ concat rest) ++ b)).
    + apply (IH _ _ _ (a ++ d)); [done| |done].
      rewrite concat_app. cbn [concat]. rewrite app_nil_r. by apply suffix_app.
Qed.

Lemma merge_splits_substring good a b :
  whole = a ++ concat good ++ b →
  Forall (λ c, substring_of c whole) (_merge_splits cs co good []).
Proof.
  intros Hwhole. unfold _merge_splits.
  apply (merge_loop_substring good [] [] 0 a b); [done | apply suffix_nil | done].
Qed.

Lemma split_loop_substring deeper splits good final a b :
  (∀ f s, deeper = Some f → Forall (λ c, substring_of c s) (f s)) →
  whole = a ++ concat good ++ concat splits ++ b →
  Forall (λ c, substring_of c whole) final →
  Forall (λ c, substring_of c whole) (split_loop cs co deeper splits good final).
Proof.
  intros Hdeeper. revert good final a.
  induction splits as [|s rest IH]; intros good final a Hwhole Hfinal.
  - cbn [split_loop]. destruct good as [|g good]; [done|].
    apply Forall_app. split; [done|]. by eapply merge_splits_substring.
  - cbn [split_loop]. cbn [concat] in Hwhole. destruct (length s <? cs).
    + apply (IH _ _ a); [|done].
      rewrite Hwhole, concat_app. cbn [concat].
      by rewrite app_nil_r, <- !app_assoc.
    + assert (Hflush : Forall (λ c, substring_of c whole)
        match good with [] => final | _ => final ++ _merge_splits cs co good [] end).
      { destruct good as [|g good]; [done|].
        apply Forall_app. split; [done|]. by eapply merge_splits_substring. }
      assert (Hs : substring_of s whole).
      { exists (a ++ concat good), (concat rest ++ b).
        by rewrite Hwhole, <- !app_assoc. }
      apply (IH [] _ (a ++ concat good ++ s)).
      * cbn [concat app]. by rewrite Hwhole, <- !app_assoc.
      * destruct deeper as [f|]; apply Forall_app; split; try done.
        -- eapply Forall_impl; [by apply Hdeeper|].
           intros c Hc. by apply (substring_of_trans c s whole).
        -- by constructor.
Qed.
End substrings.

Lemma _split_text_substring cs co last seps text :
  Forall (λ c, substring_of c text) (_split_text cs co last seps text).
Proof.
  assert (Hsplit : ∀ deeper separator text,
    (∀ f s, deeper = Some f → Forall (λ c, substring_of c s) (f s)) →
    Forall (λ c, substring_of c text)
      (split_loop cs co deeper (_split_text_with_regex text separator) [] [])).
  { intros deeper separator t Hdeeper.
    apply (split_loop_substring cs co t deeper _ [] [] [] []); [done| |done].
    cbn [concat app]. by rewrite app_nil_r, _split_text_with_regex_concat. }
  revert text. induction seps as [|_s rest IH]; intros text; cbn [_split_text].
  - by apply Hsplit.
  - destruct _s as [|c _s]; [by apply Hsplit|].
    destruct (contains (c :: _s) text); [|apply IH].
    apply Hsplit. intros f s Hf. destruct rest; [done|].
    injection Hf as <-. apply IH.
Qed.

(** Every chunk is a run of consecutive characters of the text, and no
    chunk is empty. *)
Theorem chunks_are_substrings (text : list N) :
  Forall (λ c, c ≠ [] ∧ substring_of c text) (chunk text).
Proof.
  apply Forall_and. split.
  - unfold chunk. apply split_text_Forall.
    + intros good _. apply merge_loop_Forall; [|done].
      intros docs d. unfold _join_docs.
      destruct (strip (join [] docs)); [done|]. by intros [= <-].
    + unfold chunk_size. lia.
  - apply _split_text_substring.
Qed.

(** *** A short text *)

Lemma length_le_concat (l : list (list N)) s :
  s ∈ l → length s ≤ length (concat l).
Proof.
  induction 1 as [s l|s' s l _ IH]; cbn [concat]; rewrite length_app; lia.
Qed.

Section short.
Variables (cs co : nat).

Lemma merge_loop_no_emit splits docs cur total :
  total = length (concat cur) → total + length (concat splits) ≤ cs →
  merge_loop cs co [] splits docs cur total
    = docs_append docs (_join_docs (cur ++ splits) []).
Proof.
  revert cur total. induction splits as [|d rest IH]; intros cur total Ht Hle.
  - by rewrite merge_loop_nil, app_nil_r.
  - rewrite merge_loop_cons. cbn [concat] in Hle. rewrite length_app in Hle.
    replace (cs <? total + length d) with false
      by (symmetry; apply Nat.ltb_ge; lia).
    cbn [andb]. rewrite IH.
    + by rewrite <- app_assoc.
    + rewrite concat_app, length_app. cbn [concat length].
      rewrite app_nil_r. lia.
    + lia.
Qed.

Lemma split_loop_short deeper separator text :
  length text < cs →
  split_loop cs co deeper (_split_text_with_regex text separator) [] []
    = match strip text with [] => [] | _ => [strip text] end.
Proof.
  intros Hlen.
  pose proof (_split_text_with_regex_concat text separator) as Hcat.
  rewrite split_loop_all_good_start.
  - unfold _merge_splits. rewrite merge_loop_no_emit by (cbn; rewrite ?Hcat; lia).
    cbn [app]. unfold _join_docs. rewrite join_nil, Hcat.
    by destruct (strip text).
  - apply Forall_forall. intros s Hs. apply length_le_concat in Hs.
    rewrite Hcat in Hs. lia.
Qed.

Lemma _split_text_short last seps text :
  length text < cs →
  _split_text cs co last seps text
    = match strip text with [] => [] | _ => [strip text] end.
Proof.
  intros Hlen. induction seps as [|_s rest IH]; cbn [_split_text].
  - by apply split_loop_short.
  - destruct _s as [|c _s]; [by apply split_loop_short|].
    destruct (contains (c :: _s) text); [by apply split_loop_short | apply IH].
Qed.
End short.

(** A text shorter than the chunk size is not cut: it gives one chunk,
    which is the text without the whitespace around it, or no chunk at all
    when it is nothing but whitespace. *)
Theorem short_text_one_chunk (text : list N) :
  length text < chunk_size →
  chunk text = match strip text with [] => [] | _ => [strip text] end.
Proof. intros Hlen. unfold chunk, split_text. by apply _split_text_short. Qed.

Lemma short_text_one_chunk_witness :
  chunk (extract [py "Annual report"; py "Risk factors"])
    = match strip (extract [py "Annual report"; py "Risk factors"]) with
      | [] => []
      | _ => [strip (extract [py "Annual report"; py "Risk factors"])]
      end.
Proof.
  apply (short_text_one_chunk (extract [py "Annual report"; py "Risk factors"])).
  vm_compute. lia.
Defined.

Lemma trimmed_strip c : trimmed c → strip c = c.
Proof.
  unfold trimmed, begins_with_space, ends_with_space, strip, rstrip.
  intros [Hhead Hlast].
  assert (Hl : lstrip c = c).
  { destruct c as [|x c]; [done|]. cbn in *. by rewrite Hhead. }
  rewrite Hl.
  assert (Hr : lstrip (reverse c) = reverse c).
  { rewrite <- head_reverse in Hlast.
    destruct (reverse c) as [|x r]; [done|]. cbn in *. by rewrite Hlast. }
  by rewrite Hr, reverse_involutive.
Qed.

(** Chunking a chunk again gives the chunk back: a chunk shorter than the
    chunk size is cut into itself alone. *)
Theorem chunk_of_a_chunk (text : list N) :
  Forall (λ c, length c < chunk_size → chunk c = [c]) (chunk text).
Proof.
  assert (Hne : Forall (λ c, c ≠ []) (chunk text)).
  { unfold chunk. apply split_text_Forall.
    - intros good _. apply merge_loop_Forall; [|done].
      intros docs d. unfold _join_docs.
      destruct (strip (join [] docs)); [done|]. by intros [= <-].
    - unfold chunk_size. lia. }
  assert (Htrim : Forall trimmed (chunk text)).
  { unfold chunk. apply split_text_Forall.
    - intros good _. apply merge_loop_Forall; [|done].
      intros docs d. apply join_docs_trimmed.
    - unfold chunk_size. lia. }
  rewrite Forall_forall in Hne, Htrim. apply Forall_forall.
  intros c Hc Hlen. unfold chunk, split_text.
  rewrite _split_text_short by done.
  rewrite (trimmed_strip c) by auto. specialize (Hne c Hc). by destruct c.
Qed.

Lemma chunk_of_a_chunk_witness : chunk (py "Annual report") = [py "Annual report"].
Proof.
  pose proof (chunk_of_a_chunk ([32%N] ++ py "Annual report" ++ [NL])) as H.
  assert (E : chunk ([32%N] ++ py "Annual report" ++ [NL]) = [py "Annual report"])
    by (vm_compute; reflexivity).
  rewrite E in H. apply Forall_inv in H. apply H. vm_compute. lia.
Defined.

(** *** Coarse to fine: what is merged and what is handed down *)

Section groups.
Variables (cs co : nat).

Lemma split_loop_groups deeper splits good final :
  split_loop cs co deeper splits good final
    = final ++ concat (group_chunks cs co deeper <$> groups_from cs good splits).
Proof.
  revert good final. induction splits as [|s rest IH]; intros good final.
  - cbn [split_loop groups_from]. destruct good as [|g good].
    + cbn. by rewrite app_nil_r.
    + cbn [fmap list_fmap concat group_chunks]. by rewrite app_nil_r.
  - cbn [split_loop groups_from]. destruct (length s <? cs); [apply IH|].
    rewrite IH. rewrite fmap_app, concat_app. cbn [fmap list_fmap concat].
    destruct good as [|g good]; destruct deeper as [f|];
      cbn [fmap list_fmap concat group_chunks app];
      by rewrite <- ?app_assoc, ?app_nil_r.
Qed.

Lemma groups_from_pieces good splits :
  concat (group_pieces <$> groups_from cs good splits) = good ++ splits.
Proof.
  revert good. induction splits as [|s rest IH]; intros good.
  - cbn [groups_from]. destruct good; cbn; by rewrite ?app_nil_r.
  - cbn [groups_from]. destruct (length s <? cs).
    + rewrite IH. by rewrite <- app_assoc.
    + rewrite fmap_app, concat_app. cbn [fmap list_fmap concat group_pieces].
      rewrite IH. destruct good; cbn; by rewrite ?app_nil_r.
Qed.

Lemma groups_from_Forall good splits :
  Forall (λ p, length p < cs) good →
  Forall (λ g, match g with
               | Merged l => l ≠ [] ∧ Forall (λ p, length p < cs) l
               | HandedDown p => cs ≤ length p
               end) (groups_from cs good splits).
Proof.
  revert good. induction splits as [|s rest IH]; intros good Hgood.
  - cbn [groups_from]. destruct good; [done|].
    constructor; [done | constructor].
  - cbn [groups_from]. destruct (Nat.ltb_spec (length s) cs) as [Hs|Hs].
    + apply IH. apply Forall_app. split; [done|]. by constructor.
    + apply Forall_app. split.
      * destruct good; [done|]. constructor; [done | constructor].
      * constructor; [done|]. by apply IH.
Qed.

Lemma groups_from_maximal good splits i l1 l2 :
  groups_from cs good splits !! i = Some (Merged l1) →
  groups_from cs good splits !! S i = Some (Merged l2) → False.
Proof.
  revert good i. induction splits as [|s rest IH]; intros good i.
  - cbn [groups_from]. by destruct good.
  - cbn [groups_from]. destruct (length s <? cs); [apply IH|].
    destruct good as [|g good]; cbn [app].
    + destruct i as [|i]; [done|]. apply IH.
    + destruct i as [|[|i]]; [done | done |]. apply IH.
Qed.

Lemma groups_from_grouped splits :
  grouped cs splits (groups_from cs [] splits).
Proof.
  split_and!.
  - apply groups_from_pieces.
  - by apply groups_from_Forall.
  - apply groups_from_maximal.
Qed.

(** The separator the text is cut with, and the splitter that the pieces
    too long are handed to. *)
Lemma _split_text_groups last _s rest text :
  _s ≠ [] → contains _s text = true →
  _split_text cs co last (_s :: rest) text
    = concat (group_chunks cs co
                match rest with
                | [] => None
                | _ => Some (_split_text cs co last rest)
                end
              <$> groups_from cs [] (_split_text_with_regex text _s)).
Proof.
  intros Hne Hin. cbn [_split_text]. destruct _s as [|c _s]; [done|].
  rewrite Hin. by rewrite split_loop_groups.
Qed.

Lemma _split_text_first last seps text :
  ∃ deeper,
    _split_text cs co last seps text
      = split_loop cs co deeper
          (_split_text_with_regex text (first_separator last seps text)) [] [].
Proof.
  induction seps as [|_s rest IH]; cbn [_split_text first_separator].
  - by exists None.
  - destruct _s as [|c _s]; [by exists None|].
    destruct (contains (c :: _s) text); [by eexists | apply IH].
Qed.

(** Each chunk of pieces merged is a run of whole pieces, stripped. *)
Lemma merge_loop_whole splits docs cur total before :
  let P c := ∃ a kept b, before ++ cur ++ splits = a ++ kept ++ b
                         ∧ c = strip (concat kept) in
  Forall P docs → Forall P (merge_loop cs co [] splits docs cur total).
Proof.
  intros P. revert docs cur total before P.
  induction splits as [|d rest IH]; intros docs cur total before P Hdocs.
  - rewrite merge_loop_nil. apply docs_append_Forall; [done|].
    intros c Hc. unfold _join_docs in Hc. rewrite join_nil in Hc.
    exists before, cur, []. split; [done|].
    destruct (strip (concat cur)); [done|]. by injection Hc as <-.
  - rewrite merge_loop_cons. destruct (_ && _).
    + destruct (pop_front_suffix cs co (length d) cur total) as [dropped Hcur].
      set (kept := (pop_front cs co 0 (length d) cur total).1) in *.
      assert (E : before ++ cur ++ d :: rest
                  = (before ++ dropped) ++ (kept ++ [d]) ++ rest)
        by (rewrite Hcur, <- !app_assoc; done).
      subst P. cbn beta in *. rewrite E. apply IH. rewrite <- E.
      apply docs_append_Forall; [done|].
      intros c Hc. unfold _join_docs in Hc. rewrite join_nil in Hc.
      exists before, cur, (d :: rest). split; [done|].
      destruct (strip (concat cur)); [done|]. by injection Hc as <-.
    + assert (E : before ++ cur ++ d :: rest = before ++ (cur ++ [d]) ++ rest)
        by (by rewrite <- !app_assoc).
      subst P. cbn beta in *. rewrite E. apply IH. by rewrite <- E.
Qed.

Lemma merge_splits_whole splits c :
  c ∈ _merge_splits cs co splits [] →
  ∃ a kept b, splits = a ++ kept ++ b ∧ c = strip (concat kept).
Proof.
  intros Hc. unfold _merge_splits in Hc.
  pose proof (merge_loop_whole splits [] [] 0 [] ltac:(constructor)) as H.
  cbn zeta in H. rewrite Forall_forall in H. by apply H in Hc.
Qed.
End groups.

(** *** Ink: what stripping keeps *)

Lemma has_ink_app s t : has_ink (s ++ t) = has_ink s || has_ink t.
Proof. apply existsb_app. Qed.

Lemma has_ink_concat (l : list (list N)) p :
  p ∈ l → has_ink p = true → has_ink (concat l) = true.
Proof.
  induction 1 as [p l|p' p l _ IH]; intros Hp; cbn [concat];
    rewrite has_ink_app.
  - by rewrite Hp.
  - rewrite IH by done. apply orb_true_r.
Qed.

Lemma has_ink_lstrip s : has_ink (lstrip s) = has_ink s.
Proof.
  induction s as [|c s IH]; [done|]. cbn [lstrip].
  destruct (isspace c) eqn:Hc; [|done]. cbn. by rewrite Hc, IH.
Qed.

Lemma has_ink_reverse s : has_ink (reverse s) = has_ink s.
Proof.
  induction s as [|c s IH]; [done|].
  rewrite reverse_cons, has_ink_app, IH. cbn. by rewrite orb_false_r, orb_comm.
Qed.

Lemma has_ink_strip s : has_ink (strip s) = has_ink s.
Proof.
  unfold strip, rstrip.
  by rewrite has_ink_reverse, has_ink_lstrip, has_ink_reverse, has_ink_lstrip.
Qed.

Lemma has_ink_nonempty s : has_ink s = true → s ≠ [].
Proof. by intros H ->. Qed.

Lemma join_docs_ink cur :
  has_ink (concat cur) = true → _join_docs cur [] = Some (strip (concat cur)).
Proof.
  intros H. unfold _join_docs. rewrite join_nil.
  rewrite <- has_ink_strip in H. by destruct (strip (concat cur)).
Qed.

Lemma lstrip_app_ink a b : has_ink a = true → lstrip (a ++ b) = lstrip a ++ b.
Proof.
  induction a as [|c a IH]; [done|]. cbn [app lstrip has_ink existsb].
  destruct (isspace c); [apply IH | done].
Qed.

Lemma lstrip_suffix_app a b : lstrip b `suffix_of` lstrip (a ++ b).
Proof.
  induction a as [|c a IH]; [done|]. cbn [app lstrip].
  destruct (isspace c); [done|].
  apply suffix_cons_r, suffix_app_r, lstrip_suffix.
Qed.

Lemma rstrip_prefix_app a b : rstrip a `prefix_of` rstrip (a ++ b).
Proof.
  unfold rstrip. apply prefix_suffix_reverse.
  rewrite !reverse_involutive, reverse_app. apply lstrip_suffix_app.
Qed.

Lemma rstrip_app_ink a b : has_ink b = true → rstrip (a ++ b) = a ++ rstrip b.
Proof.
  intros Hb. unfold rstrip.
  rewrite reverse_app, lstrip_app_ink by (by rewrite has_ink_reverse).
  by rewrite reverse_app, reverse_involutive.
Qed.

(** What begins a text with ink still begins it once both are stripped,
    and likewise what ends it. *)
Lemma strip_prefix_app a b :
  has_ink a = true → strip a `prefix_of` strip (a ++ b).
Proof.
  intros Ha. unfold strip. rewrite lstrip_app_ink by done.
  apply rstrip_prefix_app.
Qed.

Lemma strip_suffix_app a b :
  has_ink b = true → strip b `suffix_of` strip (a ++ b).
Proof.
  intros Hb. unfold strip.
  destruct (lstrip_suffix_app a b) as [k ->].
  rewrite rstrip_app_ink by (by rewrite has_ink_lstrip).
  by apply suffix_app_r.
Qed.

(** *** Consecutive chunks of small pieces overlap *)

Lemma overlapping_short (l : list (list N)) : length l ≤ 1 → overlapping l.
Proof.
  intros Hl i c1 c2 _ H2. apply lookup_lt_Some in H2. lia.
Qed.

Lemma overlapping_snoc (l : list (list N)) c :
  overlapping l →
  (∀ c1, last l = Some c1 → ∃ o, o ≠ [] ∧ overlap c1 c o) →
  overlapping (l ++ [c]).
Proof.
  intros Hl Hc i c1 c2 H1 H2.
  destruct (decide (S i < length l)) as [Hi|Hi].
  - rewrite lookup_app_l in H1 by lia. rewrite lookup_app_l in H2 by done.
    by apply (Hl i).
  - pose proof (lookup_lt_Some _ _ _ H2) as Hlt.
    rewrite length_app in Hlt. cbn [length] in Hlt.
    assert (S i = length l) as Hi' by lia.
    rewrite lookup_app_l in H1 by lia.
    rewrite lookup_app_r, Hi', Nat.sub_diag in H2 by lia.
    injection H2 as <-. apply Hc. rewrite last_lookup.
    by replace (pred (length l)) with i by lia.
Qed.

Lemma removelast_suffix {A} (P : A → Prop) (l1 l2 : list A) :
  l2 `suffix_of` l1 → Forall P (removelast l1) → Forall P (removelast l2).
Proof.
  intros [k ->] H. destruct l2 as [|x l2]; [constructor|].
  rewrite removelast_app in H by done. by apply Forall_app in H as [_ H].
Qed.

Lemma ink_concat_nonempty (l : list (list N)) :
  l ≠ [] → Forall (λ p, has_ink p = true) l → has_ink (concat l) = true.
Proof.
  intros Hne Hl. destruct l as [|p l]; [done|].
  apply (has_ink_concat _ p); [constructor|]. by apply Forall_inv in Hl.
Qed.

Section overlaps.
Variables (cs co : nat).

Lemma pop_front_nonempty _len cur total :
  cur ≠ [] → Forall (λ p, length p ≤ co ∧ length p + length p ≤ cs) cur →
  _len ≤ co → _len + _len ≤ cs → total = length (concat cur) →
  (pop_front cs co 0 _len cur total).1 ≠ [].
Proof.
  intros Hne Hcur Hd1 Hd2. revert total Hne.
  induction cur as [|d0 rest IH]; intros total Hne Ht; [done|].
  inversion Hcur as [|? ? [H1 H2] Hrest]; subst.
  cbn [pop_front]. destruct (_ || _) eqn:Hcond; [|done].
  destruct rest as [|d1 rest].
  - exfalso. cbn [concat length] in Hcond. rewrite app_nil_r in Hcond.
    apply orb_true_iff in Hcond as [H|H].
    + apply Nat.ltb_lt in H. lia.
    + apply andb_true_iff in H as [H _]. apply Nat.ltb_lt in H. cbn in H. lia.
  - apply IH; [done | done |].
    cbn [concat length]. rewrite !length_app. cbn. lia.
Qed.

Lemma merge_loop_overlapping splits docs cur total :
  Forall (λ p, length p ≤ co ∧ length p + length p ≤ cs) (cur ++ splits) →
  Forall (λ p, has_ink p = true) (removelast (cur ++ splits)) →
  total = length (concat cur) →
  overlapping docs →
  (docs = [] ∨
   ∃ k c, 0 < k ≤ length cur ∧ last docs = Some c
          ∧ Forall (λ p, has_ink p = true) (take k cur)
          ∧ strip (concat (take k cur)) `suffix_of` c) →
  overlapping (merge_loop cs co [] splits docs cur total).
Proof.
  pose proof ink_concat_nonempty as Hink_concat.
  assert (Hemit : ∀ docs cur,
            overlapping docs →
            (docs = [] ∨
             ∃ k c, 0 < k ≤ length cur ∧ last docs = Some c
                    ∧ Forall (λ p, has_ink p = true) (take k cur)
                    ∧ strip (concat (take k cur)) `suffix_of` c) →
            overlapping (docs ++ [strip (concat cur)])).
  { intros docs0 cur0 Hdocs [->|(k & c & Hk & Hlast & Hink & Hsuf)];
      [by apply overlapping_short|].
    apply overlapping_snoc; [done|]. intros c1 Hc1.
    rewrite Hlast in Hc1. injection Hc1 as <-.
    assert (Ho : has_ink (concat (take k cur0)) = true).
    { apply Hink_concat; [|done]. intros E. apply (f_equal length) in E.
      rewrite length_take in E. cbn in E. lia. }
    exists (strip (concat (take k cur0))). unfold overlap. split_and!.
    - apply has_ink_nonempty. by rewrite has_ink_strip.
    - done.
    - rewrite <- (take_drop k cur0) at 2. rewrite concat_app.
      by apply strip_prefix_app. }
  revert docs cur total.
  induction splits as [|d rest IH]; intros docs cur total Hlen Hink Ht Hdocs HJ.
  - rewrite merge_loop_nil. destruct HJ as [->|HJ].
    + apply overlapping_short. unfold docs_append.
      destruct (_join_docs cur []); cbn; lia.
    + destruct HJ as (k & c & Hk & Hlast & Hk_ink & Hsuf).
      rewrite join_docs_ink.
      * cbn [docs_append]. apply Hemit; [done|]. right. by exists k, c.
      * rewrite <- (take_drop k cur), concat_app, has_ink_app.
        rewrite Hink_concat; [done| |done].
        intros E. apply (f_equal length) in E.
        rewrite length_take in E. cbn in E. lia.
  - assert (Hcur_ink : Forall (λ p, has_ink p = true) cur).
    { rewrite removelast_app in Hink by done.
      by apply Forall_app in Hink as [? _]. }
    pose proof Hlen as Hlen'. apply Forall_app in Hlen' as [Hcur_len Hd_len].
    apply Forall_cons in Hd_len as [[Hd1 Hd2] Hrest_len].
    rewrite merge_loop_cons. destruct (_ && _) eqn:Hcond.
    + apply andb_true_iff in Hcond as [_ Hne]. apply Nat.ltb_lt in Hne.
      assert (Hcur_ne : cur ≠ []) by (intros ->; cbn in Hne; lia).
      destruct (pop_front_suffix cs co (length d) cur total) as [dropped Hkept].
      pose proof (pop_front_nonempty (length d) cur total Hcur_ne Hcur_len
                    Hd1 Hd2 Ht) as Hkept_ne.
      destruct (pop_front_spec cs co (length d) cur total Ht) as [Htotal _].
      set (kept := (pop_front cs co 0 (length d) cur total).1) in *.
      assert (Hkept_ink : Forall (λ p, has_ink p = true) kept).
      { rewrite Hkept in Hcur_ink. by apply Forall_app in Hcur_ink as [_ ?]. }
      rewrite join_docs_ink by (by apply Hink_concat).
      cbn [docs_append]. apply IH.
      * rewrite <- app_assoc. cbn [app]. rewrite Hkept, <- app_assoc in Hlen.
        by apply Forall_app in Hlen as [_ ?].
      * apply (removelast_suffix _ (cur ++ d :: rest)); [|done].
        rewrite Hkept, <- !app_assoc. by apply suffix_app_r.
      * rewrite Htotal, concat_app, length_app. cbn [concat length].
        by rewrite app_nil_r.
      * by apply Hemit.
      * right. exists (length kept), (strip (concat cur)). split_and!.
        -- destruct kept; [done | cbn; lia].
        -- rewrite length_app. lia.
        -- by rewrite last_snoc.
        -- by rewrite take_app_length.
        -- rewrite take_app_length, Hkept, concat_app.
           apply strip_suffix_app. by apply Hink_concat.
    + apply IH.
      * by rewrite <- app_assoc.
      * by rewrite <- app_assoc.
      * rewrite concat_app, length_app. cbn [concat length].
        rewrite app_nil_r. lia.
      * done.
      * destruct HJ as [->|(k & c & Hk & Hlast & Hk_ink & Hsuf)]; [by left|].
        right. exists k, c. rewrite length_app, take_app_le by lia.
        split_and!; [lia | lia | done | done | done].
Qed.

Lemma merge_splits_overlapping splits :
  small_pieces cs co splits = true → inked_pieces splits = true →
  overlapping (_merge_splits cs co splits []).
Proof.
  unfold small_pieces, inked_pieces. rewrite !forallb_forall.
  intros Hsmall Hink. unfold _merge_splits.
  apply merge_loop_overlapping;
    [| |done|apply overlapping_short; cbn; lia|by left].
  - apply Forall_forall. intros p Hp. apply list_elem_of_In, Hsmall in Hp.
    apply andb_true_iff in Hp as [H1 H2].
    apply Nat.leb_le in H1. apply Nat.leb_le in H2. done.
  - apply Forall_forall. intros p Hp. by apply list_elem_of_In, Hink in Hp.
Qed.

Lemma _split_text_overlapping last seps text :
  co < cs →
  small_pieces cs co
    (_split_text_with_regex text (first_separator last seps text)) = true →
  inked_pieces
    (_split_text_with_regex text (first_separator last seps text)) = true →
  overlapping (_split_text cs co last seps text).
Proof.
  intros Hlt Hsmall Hink.
  destruct (_split_text_first cs co last seps text) as [deeper ->].
  rewrite split_loop_all_good_start.
  - by apply merge_splits_overlapping.
  - unfold small_pieces in Hsmall. rewrite forallb_forall in Hsmall.
    apply Forall_forall. intros p Hp. apply list_elem_of_In, Hsmall in Hp.
    apply andb_true_iff in Hp as [H1 _]. apply Nat.leb_le in H1. lia.
Qed.
End overlaps.

(** *** Pieces of bounded length: the windows of the text *)

Lemma slice_middle (x y z : list N) :
  slice (x ++ y ++ z) (length x) (length x + length y) = y.
Proof.
  unfold slice. rewrite drop_app_length.
  replace (length x + length y - length x) with (length y) by lia.
  by rewrite take_app_length.
Qed.

Lemma join_docs_window (g : list (list N)) text a b :
  concat g = slice text a b → _join_docs g [] = window_chunk text a b.
Proof.
  intros H. unfold window_chunk, _join_docs. rewrite join_nil, H. done.
Qed.

Section rounds.
Variables (cs co n : nat).
Hypothesis room : co + n ≤ cs.

Lemma pop_front_stop _len cur total :
  total ≤ co → _len ≤ n →
  pop_front cs co 0 _len cur total = (cur, total).
Proof.
  intros Ht Hlen. destruct cur as [|d0 rest]; [done|]. cbn [pop_front].
  replace (co <? total) with false by (symmetry; apply Nat.ltb_ge; lia).
  replace (cs <? total + _len + (if 0 <? length (d0 :: rest) then 0 else 0))
    with false; [done|].
  symmetry. apply Nat.ltb_ge. destruct (0 <? _); lia.
Qed.

(** The [while] loop keeps more than [co - n] characters of a
    [current_doc] longer than [co]. *)
Lemma pop_front_kept _len cur total :
  Forall (λ p, length p ≤ n) cur → total = length (concat cur) →
  _len ≤ n → co < total →
  co < length (concat (pop_front cs co 0 _len cur total).1) + n.
Proof.
  intros Hcur Ht Hlen. revert total Ht.
  induction Hcur as [|d0 rest Hd0 Hrest IH]; intros total Ht Hlt.
  - cbn in Ht. lia.
  - cbn [pop_front].
    replace (co <? total) with true by (symmetry; apply Nat.ltb_lt; lia).
    cbn [orb].
    assert (E : total - (length d0 + (if 1 <? length (d0 :: rest) then 0 else 0))
                = length (concat rest)).
    { subst total. cbn [concat]. rewrite length_app. destruct (1 <? _); lia. }
    rewrite E.
    destruct (decide (co < length (concat rest))) as [Hlong|Hshort].
    + by apply IH.
    + rewrite pop_front_stop by lia. cbn [fst].
      subst total. cbn [concat] in Hlt. rewrite length_app in Hlt. lia.
Qed.

(** Pieces fill [current_doc] up to the first that does not fit. *)
Lemma merge_loop_fill_pieces splits docs cur total :
  total = length (concat cur) → total ≤ cs →
  cs < total + length (concat splits) →
  ∃ A d R,
    splits = A ++ d :: R ∧
    total + length (concat A) ≤ cs ∧
    cs < total + length (concat A) + length d ∧
    merge_loop cs co [] splits docs cur total
      = merge_loop cs co [] (d :: R) docs (cur ++ A)
          (total + length (concat A)).
Proof.
  revert cur total. induction splits as [|d0 rest IH]; intros cur total Ht Hle Hlt.
  - cbn in Hlt. lia.
  - destruct (decide (total + length d0 ≤ cs)) as [Hfit|Hover].
    + destruct (IH (cur ++ [d0]) (total + length d0)) as (A & d & R & -> & H1 & H2 & E).
      * rewrite concat_app, length_app. cbn [concat length].
        rewrite app_nil_r. lia.
      * done.
      * cbn [concat] in Hlt. rewrite length_app in Hlt. lia.
      * exists (d0 :: A), d, R. cbn [concat]. rewrite length_app.
        split_and!; [done | lia | lia |].
        rewrite merge_loop_cons.
        replace (cs <? total + length d0) with false
          by (symmetry; apply Nat.ltb_ge; lia).
        cbn [andb]. rewrite E, <- app_assoc. cbn [app]. f_equal. lia.
    + exists [], d0, rest. cbn [concat length app].
      rewrite app_nil_r, Nat.add_0_r. split_and!; [done | lia | lia | done].
Qed.

(** One round: [current_doc] is filled, given out, and cut back to the
    overlap; then the piece that did not fit joins it. *)
Lemma merge_loop_round splits docs cur total :
  Forall (λ p, length p ≤ n) (cur ++ splits) →
  total = length (concat cur) → total ≤ cs →
  cs < total + length (concat splits) →
  ∃ A d R dropped kept,
    splits = A ++ d :: R ∧ cur ++ A = dropped ++ kept ∧
    length (concat (cur ++ A)) ≤ cs ∧
    cs < length (concat (cur ++ A)) + n ∧
    length (concat kept) ≤ co ∧ co < length (concat kept) + n ∧
    merge_loop cs co [] splits docs cur total
      = merge_loop cs co [] R (docs_append docs (_join_docs (cur ++ A) []))
          (kept ++ [d]) (length (concat (kept ++ [d]))).
Proof.
  intros Hlen Ht Hle Hlt.
  destruct (merge_loop_fill_pieces splits docs cur total Ht Hle Hlt)
    as (A & d & R & -> & H1 & H2 & E).
  assert (Hd : length d ≤ n).
  { apply Forall_app in Hlen as [_ Hlen]. apply Forall_app in Hlen as [_ Hlen].
    by apply Forall_inv in Hlen. }
  assert (Hg : Forall (λ p, length p ≤ n) (cur ++ A)).
  { rewrite app_assoc in Hlen. by apply Forall_app in Hlen as [? _]. }
  assert (Htotal : total + length (concat A) = length (concat (cur ++ A)))
    by (rewrite concat_app, length_app; lia).
  rewrite Htotal in *.
  remember (cur ++ A) as g eqn:Eg. remember (length (concat g)) as t eqn:Et.
  destruct (pop_front_suffix cs co (length d) g t) as [dropped Hkept].
  destruct (pop_front_spec cs co (length d) g t Et) as [Ht2 Hstop].
  pose proof (pop_front_kept (length d) g t Hg Et Hd ltac:(lia)) as Hlow.
  exists A, d, R, dropped, (pop_front cs co 0 (length d) g t).1.
  rewrite <- Eg, <- Et.
  split_and!; [done | done | done | lia | | done |].
  - destruct Hstop as [->|[Hco _]]; [cbn; lia | lia].
  - rewrite E, merge_loop_cons.
    replace (cs <? t + length d) with true by (symmetry; apply Nat.ltb_lt; lia).
    replace (0 <? length g) with true.
    + cbn [andb]. f_equal. rewrite Ht2, concat_app, length_app.
      cbn [concat length]. by rewrite app_nil_r.
    + symmetry. apply Nat.ltb_lt. destruct g; [cbn in Et; lia | cbn; lia].
Qed.
End rounds.

Lemma docs_append_three (j1 j2 j3 : option (list N)) :
  docs_append (docs_append (docs_append [] j1) j2) j3 = omap id [j1; j2; j3].
Proof. by destruct j1, j2, j3. Qed.

Lemma lstrip_decompose s : ∃ gap, s = gap ++ lstrip s ∧ all_space gap = true.
Proof.
  induction s as [|c s IH]; [by exists []|]. cbn [lstrip].
  destruct (isspace c) eqn:Hc; [|by exists []].
  destruct IH as (gap & Hs & Hgap). exists (c :: gap).
  split; [cbn [app]; by rewrite <- Hs | cbn; by rewrite Hc].
Qed.

Lemma rstrip_decompose s : ∃ gap, s = rstrip s ++ gap ∧ all_space gap = true.
Proof.
  destruct (lstrip_decompose (reverse s)) as (gap & Hs & Hgap).
  exists (reverse gap). split; [|by apply all_space_reverse].
  unfold rstrip. by rewrite <- reverse_app, <- Hs, reverse_involutive.
Qed.

(** A window of the text that begins with a piece that is not blank: what
    stripping leaves of it begins inside that piece. *)
Lemma strip_window (x y : list N) (g : list (list N)) p n :
  head g = Some p → has_ink p = true → length p ≤ n →
  ∃ s e, length x ≤ s ∧ s < length x + n ∧ s < e
         ∧ e ≤ length x + length (concat g)
         ∧ strip (concat g) = slice (x ++ concat g ++ y) s e.
Proof.
  intros Hg Hp Hlen. destruct g as [|p' g]; [done|]. injection Hg as ->.
  cbn [concat].
  destruct (lstrip_decompose p) as (gap1 & Hp1 & Hgap1).
  destruct (rstrip_decompose (lstrip (p ++ concat g))) as (gap2 & Hp2 & Hgap2).
  fold (strip (p ++ concat g)) in Hp2.
  assert (Hw : p ++ concat g = gap1 ++ strip (p ++ concat g) ++ gap2).
  { rewrite <- Hp2, lstrip_app_ink by done. rewrite app_assoc. by rewrite <- Hp1. }
  assert (Hne : strip (p ++ concat g) ≠ []).
  { apply has_ink_nonempty. by rewrite has_ink_strip, has_ink_app, Hp. }
  assert (Hgap : length gap1 < length p).
  { assert (lstrip p ≠ []) by (apply has_ink_nonempty; by rewrite has_ink_lstrip).
    apply (f_equal length) in Hp1. rewrite length_app in Hp1.
    destruct (lstrip p); [done | cbn in Hp1; lia]. }
  exists (length x + length gap1),
    (length x + length gap1 + length (strip (p ++ concat g))).
  pose proof (f_equal length Hw) as Hl. rewrite !length_app in Hl.
  split_and!; try lia.
  - destruct (strip (p ++ concat g)); [done | cbn; lia].
  - rewrite length_app. lia.
  - rewrite Hw at 2.
    replace (x ++ (gap1 ++ strip (p ++ concat g) ++ gap2) ++ y)
      with ((x ++ gap1) ++ strip (p ++ concat g) ++ (gap2 ++ y))
      by (by rewrite <- !app_assoc).
    rewrite <- length_app. by rewrite slice_middle.
Qed.

Section three_windows.
Variables (cs co n T : nat).
Hypothesis room : co + n ≤ cs.
Hypothesis more_than_one : cs < T.
Hypothesis more_than_two : 2 * cs + n ≤ co + T.
Hypothesis no_more : 2 * co + T + 2 * n ≤ 3 * cs + 2.

Lemma merge_splits_three P :
  Forall (λ p, length p ≤ n) P → length (concat P) = T →
  ∃ b1 a2 b2 a3,
    (b1 ≤ cs ∧ cs < b1 + n) ∧
    (a2 ≤ b1 ∧ b1 ≤ a2 + co ∧ a2 + co < b1 + n) ∧
    (b2 ≤ a2 + cs ∧ a2 + cs < b2 + n) ∧
    (a3 ≤ b2 ∧ b2 ≤ a3 + co ∧ a3 + co < b2 + n) ∧
    b2 < T ∧
    _merge_splits cs co P []
      = omap id [window_chunk (concat P) 0 b1; window_chunk (concat P) a2 b2;
                 window_chunk (concat P) a3 T] ∧
    (n ≤ co → inked_pieces P = true →
     ∃ s1 e1 s2 e2 s3 e3,
       (s1 < n ∧ s1 < e1 ∧ e1 ≤ b1) ∧
       (a2 ≤ s2 ∧ s2 < a2 + n ∧ s2 < e2 ∧ e2 ≤ b2) ∧
       (a3 ≤ s3 ∧ s3 < a3 + n ∧ s3 < e3 ∧ e3 ≤ T) ∧
       _merge_splits cs co P []
         = [slice (concat P) s1 e1; slice (concat P) s2 e2;
            slice (concat P) s3 e3]).
Proof.
  intros Hlen HT. unfold _merge_splits.
  destruct (merge_loop_round cs co n room P [] [] 0)
    as (A1 & d1 & R1 & D1 & K1 & HP & HA1 & Hb1 & Hb1' & Ht2 & Ht2' & E1);
    [done | done | lia | cbn [length]; lia |].
  cbn [app] in HA1, Hb1, Hb1', E1. rewrite E1. clear E1.
  assert (Hlen1 : Forall (λ p, length p ≤ n) A1 ∧ length d1 ≤ n
                  ∧ Forall (λ p, length p ≤ n) R1).
  { rewrite HP in Hlen. apply Forall_app in Hlen as [? Hlen].
    by apply Forall_cons in Hlen as [? ?]. }
  destruct Hlen1 as (HlenA1 & Hd1 & HlenR1).
  assert (HlenK1 : Forall (λ p, length p ≤ n) K1).
  { rewrite HA1 in HlenA1. by apply Forall_app in HlenA1 as [_ ?]. }
  assert (HT1 : length (concat A1) + length d1 + length (concat R1) = T).
  { rewrite <- HT, HP, concat_app, length_app. cbn [concat].
    rewrite length_app. lia. }
  assert (HL1 : length (concat A1) = length (concat D1) + length (concat K1)).
  { by rewrite HA1, concat_app, length_app. }
  destruct (merge_loop_round cs co n room R1
              (docs_append [] (_join_docs A1 [])) (K1 ++ [d1])
              (length (concat (K1 ++ [d1]))))
    as (A2 & d2 & R2 & D2 & K2 & HR1 & Hg2 & Hb2 & Hb2' & Ht3 & Ht3' & E2).
  { apply Forall_app. split; [|done]. apply Forall_app. split; [done|].
    by constructor. }
  { done. }
  { rewrite concat_app, length_app. cbn [concat length].
    rewrite app_nil_r. lia. }
  { rewrite concat_app, length_app. cbn [concat length].
    rewrite app_nil_r. lia. }
  rewrite E2. clear E2.
  assert (HT2 : length (concat A2) + length d2 + length (concat R2)
                = length (concat R1)).
  { rewrite HR1, concat_app, length_app. cbn [concat].
    rewrite length_app. lia. }
  assert (HL2 : length (concat ((K1 ++ [d1]) ++ A2))
                = length (concat K1) + length d1 + length (concat A2)).
  { rewrite !concat_app, !length_app. cbn [concat length].
    rewrite app_nil_r. lia. }
  assert (HL2' : length (concat ((K1 ++ [d1]) ++ A2))
                 = length (concat D2) + length (concat K2)).
  { by rewrite Hg2, concat_app, length_app. }
  rewrite merge_loop_no_emit.
  2: done.
  2:{ rewrite concat_app, length_app. cbn [concat length].
      rewrite app_nil_r. lia. }
  rewrite docs_append_three.
  (* the text, cut at the windows *)
  assert (Hw1 : concat P = [] ++ concat A1 ++ concat (d1 :: R1)).
  { by rewrite HP, concat_app. }
  assert (Hw2 : concat P = concat D1 ++ concat ((K1 ++ [d1]) ++ A2)
                             ++ concat (d2 :: R2)).
  { rewrite HP, HR1, HA1. rewrite <- !concat_app. f_equal.
    rewrite <- !app_assoc. done. }
  assert (Hw3 : concat P = (concat D1 ++ concat D2)
                             ++ concat ((K2 ++ [d2]) ++ R2) ++ []).
  { rewrite Hw2, Hg2, app_nil_r. rewrite <- !concat_app. f_equal.
    rewrite <- !app_assoc. done. }
  assert (HL3 : length (concat ((K2 ++ [d2]) ++ R2))
                = length (concat K2) + length d2 + length (concat R2)).
  { rewrite !concat_app, !length_app. cbn [concat length].
    rewrite app_nil_r. lia. }
  exists (length (concat A1)), (length (concat D1)),
    (length (concat D1) + length (concat ((K1 ++ [d1]) ++ A2))),
    (length (concat D1) + length (concat D2)).
  assert (S1 : concat A1 = slice (concat P) 0 (length (concat A1))).
  { rewrite Hw1 at 1. by rewrite (slice_middle [] (concat A1)). }
  assert (S2 : concat ((K1 ++ [d1]) ++ A2)
               = slice (concat P) (length (concat D1))
                   (length (concat D1) + length (concat ((K1 ++ [d1]) ++ A2)))).
  { rewrite Hw2 at 1. by rewrite slice_middle. }
  assert (S3 : concat ((K2 ++ [d2]) ++ R2)
               = slice (concat P) (length (concat D1) + length (concat D2)) T).
  { rewrite Hw3 at 1. rewrite <- length_app.
    replace T with (length (concat D1 ++ concat D2)
                    + length (concat ((K2 ++ [d2]) ++ R2)))
      by (rewrite length_app; lia).
    by rewrite slice_middle. }
  assert (Hchunks :
    omap id [_join_docs A1 []; _join_docs ((K1 ++ [d1]) ++ A2) [];
             _join_docs ((K2 ++ [d2]) ++ R2) []]
    = omap id [window_chunk (concat P) 0 (length (concat A1));
               window_chunk (concat P) (length (concat D1))
                 (length (concat D1) + length (concat ((K1 ++ [d1]) ++ A2)));
               window_chunk (concat P)
                 (length (concat D1) + length (concat D2)) T]).
  { by rewrite <- (join_docs_window _ _ _ _ S1), <- (join_docs_window _ _ _ _ S2),
      <- (join_docs_window _ _ _ _ S3). }
  split_and!; try lia; [done|].
  intros Hn Hink. unfold inked_pieces in Hink.
  rewrite forallb_forall in Hink.
  assert (Hbody : Forall (λ p, has_ink p = true) (A1 ++ d1 :: A2)).
  { apply Forall_forall. intros p Hp. apply Hink, list_elem_of_In.
    rewrite HP, HR1.
    replace (A1 ++ d1 :: A2 ++ d2 :: R2) with ((A1 ++ d1 :: A2) ++ d2 :: R2)
      by (by rewrite <- app_assoc).
    rewrite removelast_app by done. apply elem_of_app. by left. }
  apply Forall_app in Hbody as [HinkA1 Hbody].
  apply Forall_cons in Hbody as [Hinkd1 HinkA2].
  assert (HinkK1 : Forall (λ p, has_ink p = true) K1).
  { rewrite HA1 in HinkA1. by apply Forall_app in HinkA1 as [_ ?]. }
  assert (Hinkg2 : Forall (λ p, has_ink p = true) ((K1 ++ [d1]) ++ A2)).
  { apply Forall_app. split; [|done]. apply Forall_app. split; [done|].
    by constructor. }
  assert (HinkK2 : Forall (λ p, has_ink p = true) K2).
  { rewrite Hg2 in Hinkg2. by apply Forall_app in Hinkg2 as [_ ?]. }
  assert (HlenK2 : Forall (λ p, length p ≤ n) K2).
  { assert (H : Forall (λ p, length p ≤ n) ((K1 ++ [d1]) ++ A2)).
    { apply Forall_app. split.
      - apply Forall_app. split; [done | by constructor].
      - rewrite HR1 in HlenR1. by apply Forall_app in HlenR1 as [? _]. }
    rewrite Hg2 in H. by apply Forall_app in H as [_ ?]. }
  destruct A1 as [|p1 A1']; [cbn in Hb1'; lia|].
  destruct K1 as [|p2 K1']; [cbn in Ht2'; lia|].
  destruct K2 as [|p3 K2']; [cbn in Ht3'; lia|].
  destruct (strip_window [] (concat (d1 :: R1)) (p1 :: A1') p1 n)
    as (s1 & e1 & Hs1 & Hs1' & Hse1 & He1 & E1); [done | | |].
  { by apply Forall_inv in HinkA1. }
  { by apply Forall_inv in HlenA1. }
  destruct (strip_window (concat D1) (concat (d2 :: R2))
              (((p2 :: K1') ++ [d1]) ++ A2) p2 n)
    as (s2 & e2 & Hs2 & Hs2' & Hse2 & He2 & E2); [done | | |].
  { by apply Forall_inv in HinkK1. }
  { by apply Forall_inv in HlenK1. }
  destruct (strip_window (concat D1 ++ concat D2) []
              (((p3 :: K2') ++ [d2]) ++ R2) p3 n)
    as (s3 & e3 & Hs3 & Hs3' & Hse3 & He3 & E3); [done | | |].
  { by apply Forall_inv in HinkK2. }
  { by apply Forall_inv in HlenK2. }
  rewrite <- Hw1 in E1. rewrite <- Hw2 in E2. rewrite <- Hw3 in E3.
  rewrite length_app in Hs3, Hs3', He3. cbn [length] in Hs1, Hs1', He1.
  exists s1, e1, s2, e2, s3, e3. split_and!; try lia.
  rewrite !join_docs_ink.
  - cbn [omap list_omap id]. by rewrite E1, E2, E3.
  - rewrite <- app_assoc, concat_app, has_ink_app.
    by rewrite ink_concat_nonempty.
  - by apply ink_concat_nonempty.
  - by apply ink_concat_nonempty.
Qed.
End three_windows.

Lemma pieces_short (cs n : nat) (l : list (list N)) :
  n < cs → forallb (λ p, length p <=? n) l = true →
  Forall (λ p, length p ≤ n) l ∧ Forall (λ p, length p < cs) l.
Proof.
  intros Hn Hl. rewrite forallb_forall in Hl.
  split; apply Forall_forall; intros p Hp; apply list_elem_of_In, Hl in Hp;
    apply Nat.leb_le in Hp; lia.
Qed.

Lemma split_text_pieces (cs co : nat) text :
  Forall (λ p, length p < cs) (pieces text) →
  split_text cs co text = _merge_splits cs co (pieces text) [].
Proof.
  intros Hshort. unfold split_text.
  destruct (_split_text_first cs co [] separators text) as [deeper ->].
  by apply split_loop_all_good_start.
Qed.

Lemma concat_pieces text : concat (pieces text) = text.
Proof. apply _split_text_with_regex_concat. Qed.

(** C3, as the code has it.  With the overlap below the chunk size:
    every chunk is at most the chunk size long.  Two consecutive chunks
    share a text that is not empty when the pieces the text is cut into (the
    whole text, or a piece of it handed to the finer separators) each fit in
    the overlap, two of them fit in a chunk, and none but the last is blank;
    they share exactly [chunk_overlap] characters when the text has no
    whitespace and is longer than the chunk size.  The separator
    that cuts the text puts its pieces in groups, the longest runs of pieces
    shorter than the chunk size and, one by one, the pieces that are not: the
    chunks are those of the groups in order, a run being merged and a piece
    that is not short being handed to the finer separators, and to these
    only such pieces are handed.  Each chunk of a run merged is a run of
    whole pieces, stripped.  A separator that does not occur in the text is
    passed over for the finer ones. *)
Theorem chunk_lengths_and_boundaries (cs co : nat) :
  co < cs →
  (∀ text, Forall (λ c, length c ≤ cs) (split_text cs co text)) ∧
  (∀ last seps text,
     small_pieces cs co
       (_split_text_with_regex text (first_separator last seps text)) = true →
     inked_pieces
       (_split_text_with_regex text (first_separator last seps text)) = true →
     overlapping (_split_text cs co last seps text)) ∧
  (∀ text i c1 c2,
     no_space text = true → cs < length text →
     split_text cs co text !! i = Some c1 →
     split_text cs co text !! S i = Some c2 →
     ∃ o, length o = co ∧ overlap c1 c2 o) ∧
  (∀ last _s rest text,
     _s ≠ [] → contains _s text = true →
     ∃ groups,
       grouped cs (_split_text_with_regex text _s) groups ∧
       _split_text cs co last (_s :: rest) text
         = concat (group_chunks cs co
                     match rest with
                     | [] => None
                     | _ => Some (_split_text cs co last rest)
                     end
                   <$> groups)) ∧
  (∀ l c, c ∈ _merge_splits cs co l [] →
     ∃ before kept after, l = before ++ kept ++ after
                          ∧ c = strip (concat kept)) ∧
  (∀ last _s rest text,
     _s ≠ [] → contains _s text = false →
     _split_text cs co last (_s :: rest) text = _split_text cs co last rest text).
Proof.
  intros Hlt. split_and!.
  - intros text. apply chunk_lengths. lia.
  - intros last seps text. by apply _split_text_overlapping.
  - intros text i c1 c2 Ht Hlen.
    destruct (decide (2 ≤ cs)) as [Hcs|Hcs].
    + rewrite split_text_no_space by done.
      by apply (merge_splits_overlap cs co Hlt (length text)).
    + intros _ _. assert (co = 0) as -> by lia.
      exists []. unfold overlap. split_and!; [done | apply suffix_nil | apply prefix_nil].
  - intros last _s rest text Hne Hin.
    exists (groups_from cs [] (_split_text_with_regex text _s)).
    split; [apply groups_from_grouped | by apply _split_text_groups].
  - apply merge_splits_whole.
  - apply _split_text_absent.
Qed.

Lemma chunk_lengths_and_boundaries_witness :
  let report :=
    extract (replicate 3 (concat (replicate 40 (py "Risk factors follow" ++ [NL]))
                          ++ py "End of page")) in
  let solid := replicate 2400 97%N in
  let paragraphs := replicate 1200 97%N ++ [NL; NL] ++ py "Annual report" in
  Forall (λ c, length c ≤ chunk_size) (split_text chunk_size chunk_overlap report) ∧
  overlapping (split_text chunk_size chunk_overlap report) ∧
  (∃ o, length o = chunk_overlap
        ∧ overlap (replicate 1000 97%N) (replicate 1000 97%N) o) ∧
  (∃ groups,
     grouped chunk_size (_split_text_with_regex paragraphs [NL; NL]) groups ∧
     _split_text chunk_size chunk_overlap [] [[NL; NL]; [NL]; [32%N]; []] paragraphs
       = concat (group_chunks chunk_size chunk_overlap
                   (Some (_split_text chunk_size chunk_overlap []
                            [[NL]; [32%N]; []]))
                 <$> groups)) ∧
  (∃ before kept after,
     [py "Annual"; py " report"] = before ++ kept ++ after
     ∧ py "Annual report" = strip (concat kept)) ∧
  _split_text chunk_size chunk_overlap [] [[NL]; [32%N]; []] (py "Annual report")
    = _split_text chunk_size chunk_overlap [] [[32%N]; []] (py "Annual report").
Proof.
  intros report solid paragraphs.
  destruct (chunk_lengths_and_boundaries chunk_size chunk_overlap)
    as (Hlen & Hshare & Hexact & Hgroups & Hwhole & Hfine).
  { unfold chunk_size, chunk_overlap. lia. }
  split_and!.
  - apply Hlen.
  - apply (Hshare [] separators report); vm_compute; reflexivity.
  - apply (Hexact solid 0);
      [reflexivity | unfold solid, chunk_size; rewrite length_replicate; lia
      | vm_compute; reflexivity | vm_compute; reflexivity].
  - apply Hgroups; [discriminate | vm_compute; reflexivity].
  - apply Hwhole. vm_compute. left.
  - apply Hfine; [discriminate | vm_compute; reflexivity].
Defined.

(** C3 as stated fails: two paragraphs of 900 characters, each without
    whitespace, make a text longer than the chunk size whose two chunks are
    the two paragraphs; they share no overlap. *)
Lemma chunks_without_overlap :
  let text := replicate 900 97%N ++ [NL; NL] ++ replicate 900 98%N in
  chunk_overlap < chunk_size ∧ chunk_size < length text ∧
  chunk text = [replicate 900 97%N; replicate 900 98%N] ∧
  ∀ o, overlap (replicate 900 97%N) (replicate 900 98%N) o → o = [].
Proof.
  cbn zeta. split_and!.
  - unfold chunk_size, chunk_overlap. lia.
  - rewrite !length_app, !length_replicate. unfold chunk_size. cbn [length]. lia.
  - vm_compute. reflexivity.
  - intros o [Hsuf Hpre]. destruct o as [|x o]; [done|]. exfalso.
    assert (x = 97%N) as ->.
    { destruct Hsuf as [k Hk]. apply (elem_of_replicate_inv _ 900).
      rewrite Hk. set_solver. }
    destruct Hpre as [k Hk]. discriminate Hk.
Qed.

(** C7, as the code has it, for a text of 2,400 characters that is first
    cut into pieces of at most [n] characters each, [n] being at most 100.
    The text gives three windows: from its start to [b1], from [a2] to [b2]
    and from [a3] to its end, each but the last longer than [1000 - n]
    characters and none longer than 1000, each beginning at most 200 and
    more than [200 - n] characters before the end of the one before; so the
    second window begins less than [n] characters from offset 800.  The
    chunks are the windows stripped, a window that is blank giving none.
    When no piece but the last is blank they are exactly three, each a run of
    characters of the text that begins less than [n] characters after its
    window does: chunk 2 starts at an offset [s2] between [800 - n] and
    [800 + 2 n]. *)
Theorem chunk_2400 (text : list N) (n : nat) :
  length text = 2400 → n ≤ 100 →
  forallb (λ p, length p <=? n) (pieces text) = true →
  ∃ b1 a2 b2 a3,
    (b1 ≤ 1000 ∧ 1000 < b1 + n) ∧
    (a2 ≤ b1 ∧ b1 ≤ a2 + 200 ∧ a2 + 200 < b1 + n) ∧
    (b2 ≤ a2 + 1000 ∧ a2 + 1000 < b2 + n) ∧
    (a3 ≤ b2 ∧ b2 ≤ a3 + 200 ∧ a3 + 200 < b2 + n) ∧
    b2 < 2400 ∧
    (800 < a2 + n ∧ a2 < 800 + n) ∧
    chunk text = omap id [window_chunk text 0 b1; window_chunk text a2 b2;
                          window_chunk text a3 2400] ∧
    (inked_pieces (pieces text) = true →
     ∃ s1 e1 s2 e2 s3 e3,
       (s1 < n ∧ s1 < e1 ∧ e1 ≤ b1) ∧
       (a2 ≤ s2 ∧ s2 < a2 + n ∧ s2 < e2 ∧ e2 ≤ b2) ∧
       (a3 ≤ s3 ∧ s3 < a3 + n ∧ s3 < e3 ∧ e3 ≤ 2400) ∧
       (800 < s2 + n ∧ s2 < 800 + n + n) ∧
       chunk text = [slice text s1 e1; slice text s2 e2; slice text s3 e3]).
Proof.
  intros Hlen Hn Hpieces. unfold chunk, chunk_size, chunk_overlap.
  destruct (pieces_short 1000 n (pieces text) ltac:(lia) Hpieces)
    as [Hbound Hshort].
  rewrite split_text_pieces by done.
  destruct (merge_splits_three 1000 200 n 2400 ltac:(lia) ltac:(lia)
              ltac:(lia) ltac:(lia) (pieces text) Hbound)
    as (b1 & a2 & b2 & a3 & H1 & H2 & H3 & H4 & H5 & Hchunks & Hink).
  { by rewrite concat_pieces. }
  rewrite concat_pieces in Hchunks, Hink.
  exists b1, a2, b2, a3. split_and!; try lia; [done|].
  intros Hinked.
  destruct (Hink ltac:(lia) Hinked)
    as (s1 & e1 & s2 & e2 & s3 & e3 & I1 & I2 & I3 & E).
  exists s1, e1, s2, e2, s3, e3. split_and!; try lia. exact E.
Qed.

Lemma chunk_2400_witness :
  let text :=
    extract (replicate 3 (concat (replicate 39 (py "Risk factors follow" ++ [NL]))
                          ++ py "Ends")) in
  ∃ s1 e1 s2 e2 s3 e3,
    s1 < 20 ∧ (800 < s2 + 20 ∧ s2 < 800 + 20 + 20) ∧ e3 ≤ 2400 ∧
    chunk text = [slice text s1 e1; slice text s2 e2; slice text s3 e3].
Proof.
  intros text.
  destruct (chunk_2400 text 20)
    as (b1 & a2 & b2 & a3 & _ & _ & _ & _ & _ & _ & _ & Hink);
    [vm_compute; reflexivity | lia | vm_compute; reflexivity |].
  destruct Hink as (s1 & e1 & s2 & e2 & s3 & e3 & H1 & _ & H3 & H2 & E);
    [vm_compute; reflexivity|].
  exists s1, e1, s2, e2, s3, e3. split_and!; [lia | lia | lia | lia | exact E].
Defined.

(** C7 as stated fails: four paragraphs that make 2,400 characters with
    the blank lines between them are cut into four chunks, one for each
    paragraph. *)
Lemma four_paragraphs_four_chunks :
  let text := replicate 598 97%N ++ [NL; NL] ++ replicate 599 98%N ++ [NL; NL]
              ++ replicate 599 99%N ++ [NL; NL] ++ replicate 598 100%N in
  length text = 2400 ∧
  chunk text = [replicate 598 97%N; replicate 599 98%N;
                replicate 599 99%N; replicate 598 100%N].
Proof. cbn zeta. split; vm_compute; reflexivity. Qed.

